(** * rl/util.py: the advantage estimator and the state windowing routine

    A shallow embedding of [GeneralizedAdvantageEstimator] and
    [state_windowing] from [rl/util.py], together with the numpy
    operations they call, and the properties of both routines.

    Conventions.
    - A Python exception is a value of [exn]; a computation that may raise
      returns [res A = exn + A].
    - Effects are explicit: [M S A] threads a state [S] (the log of
      evaluator calls for the estimator, the store of arrays for the
      windowing routine) and returns an outcome together with the final
      state, also when the outcome is an exception.
    - Array elements are taken from a type [F] with the operations of
      class [Scalar].  Rounding of machine floats is not modelled: the laws
      a property needs ([x + y = y + x], [0 * x = 0], ...) are stated as
      hypotheses of that property, and hold in particular for [Z].
    - The file also embeds [get_soft_target_model_updates], [huber_loss]
      (finite floats as rationals), [clone_model],
      [clone_model_customize] and [AdditionalUpdatesOptimizer.get_updates];
      what they call in the framework is a parameter. *)

From stdpp Require Import gmap list strings.
From Stdlib Require Import ZArith Lia QArith Qabs Lqa.
Close Scope Q_scope.

(** ** Exceptions and the two monads *)

Inductive exn : Type :=
  | AssertionError   (* a failed [assert] *)
  | ValueError       (* numpy: shapes that do not broadcast, empty stack *)
  | IndexError       (* index out of range *)
  | DanglingRef.     (* a reference to no array; no Python name is one *)

Definition res (A : Type) : Type := exn + A.

Definition raise {A : Type} (e : exn) : res A := inl e.

#[global] Instance res_ret : MRet res := λ A x, inr x.
#[global] Instance res_bind : MBind res :=
  λ A B f m, match m with inl e => inl e | inr x => f x end.

Definition M (S A : Type) : Type := S → res A * S.

#[global] Instance M_ret {S} : MRet (M S) := λ A x s, (inr x, s).
#[global] Instance M_bind {S} : MBind (M S) :=
  λ A B f m s, match m s with
               | (inl e, s') => (inl e, s')
               | (inr x, s') => f x s'
               end.

Definition lift {S A : Type} (r : res A) : M S A := λ s, (r, s).

(** [assert b] *)
Definition py_assert {S : Type} (b : bool) : M S unit :=
  lift (if b then inr tt else raise AssertionError).

(** Left fold of a loop body that may raise: [for i in idx: acc = body acc i]. *)
Fixpoint for_each {A I : Type} (body : A → I → res A) (acc : A) (idx : list I)
  : res A :=
  match idx with
  | [] => inr acc
  | i :: idx' => acc' ← body acc i; for_each body acc' idx'
  end.

(** ** Scalars *)

Class Scalar (F : Type) : Type := {
  f0 : F;
  f1 : F;
  fadd : F → F → F;
  fsub : F → F → F;
  fmul : F → F → F
}.

#[global] Instance Z_Scalar : Scalar Z :=
  {| f0 := 0%Z; f1 := 1%Z; fadd := Z.add; fsub := Z.sub; fmul := Z.mul |}.

(** ** Python sequences and one-dimensional numpy arrays *)

(** [range(0, n)] for an integer [n]: empty when [n <= 0]. *)
Definition py_range (n : Z) : list nat := seq 0 (Z.to_nat n).

(** [l[k]]: a negative [k] counts from the end. *)
Definition py_index {A : Type} (l : list A) (k : Z) : res A :=
  let k' := if (k <? 0)%Z then (k + Z.of_nat (length l))%Z else k in
  if (k' <? 0)%Z then raise IndexError
  else match l !! Z.to_nat k' with
       | Some x => inr x
       | None => raise IndexError
       end.

(** [l[:0:-1]]: from the last element down to, and without, index 0. *)
Definition py_slice_rev_to0 {A : Type} (l : list A) : list A :=
  reverse (drop 1 l).

(** [a[1:, ]] and [a[:-1, ]] *)
Definition np_tail {A : Type} (a : list A) : list A := drop 1 a.
Definition np_init {A : Type} (a : list A) : list A := take (length a - 1) a.

(** An elementwise binary operation on two one-dimensional arrays, with
    numpy's broadcasting: equal lengths, or one of the two of length 1. *)
Definition np_binop {F : Type} (f : F → F → F) (a b : list F) : res (list F) :=
  if bool_decide (length a = length b) then inr (zip_with f a b)
  else match a, b with
       | [x], _ => inr (map (f x) b)
       | _, [y] => inr (map (λ x, f x y) a)
       | _, _ => raise ValueError
       end.

(** ** GeneralizedAdvantageEstimator *)

Section GAE.
Context {F : Type} {SF : Scalar F} {St : Type}.

(** The evaluator is [critic.predict_on_batch(...).flatten()]: a batch of
    states to a one-dimensional array.  Every call is logged. *)
Definition critic_t : Type := list St → list F.
Definition call_log : Type := list (list St).

Definition predict_on_batch (critic : critic_t) (batch : list St)
  : M call_log (list F) :=
  λ log, (inr (critic batch), log ++ [batch]).

(** One round of the loop: [result.append(result[-1] * r + delta[n-1-i])]. *)
Definition gae_body (delta : list F) (r : F) (n : Z)
    (result : list F) (i : nat) : res (list F) :=
  last_a ← py_index result (-1);
  d ← py_index delta (n - 1 - Z.of_nat i);
  mret (result ++ [fadd (fmul last_a r) d]).

Definition GeneralizedAdvantageEstimator (critic : critic_t)
    (state_batch : list St) (reward : list F) (gamma lamb : F)
  : M call_log (list F) :=
  let n := (Z.of_nat (length state_batch) - 1)%Z in
  _ ← py_assert (bool_decide (Z.of_nat (length reward) = n));
  value ← predict_on_batch critic state_batch;
  gv ← lift (mret (map (fmul gamma) (np_tail value)));
  rg ← lift (np_binop fadd reward gv);
  delta ← lift (np_binop fsub rg (np_init value));
  let r := fmul gamma lamb in
  result ← lift (for_each (gae_body delta r n) [f0] (py_range n));
  mret (py_slice_rev_to0 result).

(** *** What the specification says, in its own words *)

(** [delta[i] = rewards[i] + gamma * value[i+1] - value[i]] *)
Definition td_residual (reward value : list F) (gamma : F) (i : nat) : F :=
  fsub (fadd (nth i reward f0) (fmul gamma (nth (i + 1) value f0)))
       (nth i value f0).

(** [sum_{k = i}^{n-1} d k] *)
Definition sum_from_to (d : nat → F) (i n : nat) : F :=
  foldr fadd f0 (map d (seq i (n - i))).

(** *** The loop as a function of the residuals *)

(** What the loop leaves in [result[:0:-1]], by recursion on [delta]:
    [A[i] = A[i+1] * r + delta[i]], with the initial [0] beyond the end. *)
Fixpoint backward (r : F) (delta : list F) : list F :=
  match delta with
  | [] => []
  | d :: ds => let rest := backward r ds in
               fadd (fmul (hd f0 rest) r) d :: rest
  end.

End GAE.

(** *** A reward array of any shape *)

(** A numpy array as its shape and its elements in row-major order. *)
Record ndarray (F : Type) : Type := {
  nd_shape : list nat;
  nd_data : list F;
  nd_wf : length nd_data = foldr Nat.mul 1 nd_shape
}.
Arguments nd_shape {F} _.
Arguments nd_data {F} _.
Arguments nd_wf {F} _.

(** [len(a)]: the extent of the first axis; an array of no axis has none. *)
Definition nd_len {F : Type} (a : ndarray F) : option nat := head (nd_shape a).

Section GAE_shaped.
Context {F : Type} {SF : Scalar F} {St : Type}.

(** The estimator with [reward] an array of any shape: the assertion
    compares the whole shape with [(n,)].  Past the assertion [reward] is
    one-dimensional, and the rest is as in [GeneralizedAdvantageEstimator],
    which is this function on one-dimensional rewards. *)
Definition GeneralizedAdvantageEstimator_shaped (critic : @critic_t F St)
    (state_batch : list St) (reward : ndarray F) (gamma lamb : F)
  : M (@call_log St) (list F) :=
  let n := (Z.of_nat (length state_batch) - 1)%Z in
  _ ← py_assert (bool_decide (map Z.of_nat (nd_shape reward) = [n]));
  value ← predict_on_batch critic state_batch;
  gv ← lift (mret (map (fmul gamma) (np_tail value)));
  rg ← lift (np_binop fadd (nd_data reward) gv);
  delta ← lift (np_binop fsub rg (np_init value));
  let r := fmul gamma lamb in
  result ← lift (for_each (gae_body delta r n) [f0] (py_range n));
  mret (py_slice_rev_to0 result).

End GAE_shaped.

(** ** state_windowing *)

(** An array with a leading time axis is the list of its rows; a row is one
    observation, its trailing axes flattened.  Arrays live in a store and
    are passed by reference, as numpy passes them. *)
Abbreviation row F := (list F) (only parsing).
Abbreviation array F := (list (list F)) (only parsing).
Abbreviation loc := nat (only parsing).
Abbreviation store F := (gmap nat (list (list F))) (only parsing).

(** The rotation [np.roll] computes along axis 0:
    [result[offset:] = a[:-offset]] and [result[:offset] = a[-offset:]]
    with [offset = shift % (len(a) or 1)]. *)
Definition roll_rows {A : Type} (a : list A) (shift : nat) : list A :=
  let T := length a in
  let offset := shift mod (match T with 0 => 1 | _ => T end) in
  match offset with
  | 0 => a
  | _ => drop (T - offset) a ++ take (T - offset) a
  end.

Section Windowing.
Context {F : Type} {SF : Scalar F}.

Definition alloc (a : array F) : M (store F) loc :=
  λ h, let l := fresh (dom h) in (inr l, <[l := a]> h).

Definition load (l : loc) : M (store F) (array F) :=
  λ h, match h !! l with
       | Some a => (inr a, h)
       | None => (raise DanglingRef, h)
       end.

Definition store_at (l : loc) (a : array F) : M (store F) unit :=
  λ h, (inr tt, <[l := a]> h).

(** [np.roll(x, shift, axis)], [axis = 0]: a new array. *)
Definition np_roll (x : loc) (shift : nat) : M (store F) loc :=
  a ← load x; alloc (roll_rows a shift).

(** The rows [a[0:shift, ]] set to zero; the slice stops at the end of [a]. *)
Definition zero_prefix (a : array F) (shift : nat) : array F :=
  map (map (λ _, f0)) (take shift a) ++ drop shift a.

(** [y[0:shift, ] = 0], in place. *)
Definition setitem_zero (y : loc) (shift : nat) : M (store F) unit :=
  a ← load y; store_at y (zero_prefix a shift).

Definition naive_pad (x : loc) (shift : nat) : M (store F) loc :=
  y ← np_roll x shift;
  _ ← setitem_zero y shift;
  mret y.

(** [np.stack(arrays, axis=1)] of arrays of one shape: entry [t] of the
    result lists row [t] of each array, in the order of [arrays]. *)
Definition stack_axis1 (arrays : list (array F)) : res (list (array F)) :=
  match arrays with
  | [] => raise ValueError
  | a :: rest =>
      if bool_decide (Forall (λ b, map length b = map length a) rest)
      then inr (map (λ t, map (λ b, nth t b []) arrays) (seq 0 (length a)))
      else raise ValueError
  end.

Definition np_stack_axis1 (refs : list loc) : M (store F) (list (array F)) :=
  arrays ← mapM load refs;
  lift (stack_axis1 arrays).

Definition state_windowing (states : loc) (window_len : Z)
  : M (store F) (list (array F)) :=
  pads ← mapM (naive_pad states) (reverse (py_range window_len));
  np_stack_axis1 pads.

(** An array of shape [(T, d)]: every row has [d] elements. *)
Definition rect (d : nat) (a : array F) : Prop :=
  Forall (λ r, length r = d) a.

(** *** What the specification says, in its own words *)

(** Slice [j] of entry [t]: [observations[t - (W-1-j)]] when that index is
    not negative, else zeros of the per-step shape [d]. *)
Definition lagged_slice (observations : array F) (d W t j : nat) : row F :=
  if decide (W - 1 - j ≤ t) then nth (t - (W - 1 - j)) observations []
  else replicate d f0.

(** [out[:, -1]]: the last slice of every entry. *)
Definition last_slices (out : list (array F)) : res (array F) :=
  mapM (λ entry, py_index entry (-1)) out.

(** Data from the future in an output for window length [W]: a slice
    whose lagged index [t - (W-1-j)] is negative, so that the rotation
    could only fill it with a wrapped-around later observation, and which
    holds an element that is not zero. *)
Definition leaks_future (out : list (array F)) (W : Z) : Prop :=
  ∃ (t j : nat) (entry : array F) (r : row F),
    out !! t = Some entry ∧ entry !! j = Some r
    ∧ (Z.of_nat t < W - 1 - Z.of_nat j)%Z
    ∧ ¬ Forall (λ x, x = f0) r.

(** *** The routine as a function of the value of its input *)

(** The rotate-then-zero of [naive_pad] on the value of the array. *)
Definition pad_rows (a : array F) (shift : nat) : array F :=
  zero_prefix (roll_rows a shift) shift.

(** The value [state_windowing] returns on an array [a], for [W] slices. *)
Definition windows (a : array F) (W : nat) : list (array F) :=
  map (λ t, map (λ i, nth t (pad_rows a i) []) (reverse (seq 0 W)))
      (seq 0 (length a)).

End Windowing.

(** ** The discounted sum of the residuals *)

Section GAE_closed_form.
Context {F : Type} {SF : Scalar F}.

(** [r ** k] *)
Fixpoint fpow (r : F) (k : nat) : F :=
  match k with
  | 0 => f1
  | S k' => fmul r (fpow r k')
  end.

(** [sum_{k = 0}^{n-1-i} r**k * d (i + k)] *)
Definition discounted_sum (r : F) (d : nat → F) (i n : nat) : F :=
  foldr fadd f0 (map (λ k, fmul (fpow r k) (d (i + k))) (seq 0 (n - i))).

End GAE_closed_form.

(** ** get_soft_target_model_updates *)

(** Weights are tensors of a type [W]: [tau * w] scales a tensor by a
    number, [w1 + w2] adds two tensors of one shape. *)
Class Tensor (F W : Type) : Type := {
  tscale : F → W → W;
  tadd : W → W → W
}.

#[global] Instance Z_Tensor : Tensor Z Z :=
  {| tscale := Z.mul; tadd := Z.add |}.

Record layer (W : Type) : Type := {
  non_trainable_weights : list W
}.
Arguments non_trainable_weights {W} _.

Record model (W : Type) : Type := {
  trainable_weights : list W;
  layers : list (layer W)
}.
Arguments trainable_weights {W} _.
Arguments layers {W} _.

(** [sum(lists, [])] *)
Definition py_sum_lists {A : Type} (lists : list (list A)) : list A :=
  foldl (λ acc l, acc ++ l) [] lists.

Section Soft_updates.
Context {F W : Type} {SF : Scalar F} {TW : Tensor F W}.

(** [m.trainable_weights + sum([l.non_trainable_weights for l in m.layers], [])] *)
Definition model_weights (m : model W) : list W :=
  trainable_weights m ++ py_sum_lists (map non_trainable_weights (layers m)).

Definition get_soft_target_model_updates (target source : model W) (tau : F)
  : res (list (W * W)) :=
  let target_weights := model_weights target in
  let source_weights := model_weights source in
  if bool_decide (length target_weights = length source_weights)
  then inr (foldl (λ updates p,
                     updates ++ [(p.1, tadd (tscale tau p.2)
                                            (tscale (fsub f1 tau) p.1))])
                  [] (zip target_weights source_weights))
  else raise AssertionError.

End Soft_updates.

(** ** huber_loss *)

(** A Python float that may be infinite or no number; the finite ones are
    taken to be rationals. *)
Inductive pyfloat : Type :=
  | Fin (q : Q)
  | PInf
  | NInf
  | NaN.

(** [v > 0.] *)
Definition float_gt0 (v : pyfloat) : bool :=
  match v with
  | Fin q => negb (Qle_bool q 0)
  | PInf => true
  | NInf | NaN => false
  end.

(** [np.isinf(v)] *)
Definition np_isinf (v : pyfloat) : bool :=
  match v with
  | PInf | NInf => true
  | Fin _ | NaN => false
  end.

(** The rational a finite float stands for. *)
Definition float_val (v : pyfloat) : Q :=
  match v with
  | Fin q => q
  | PInf | NInf | NaN => 0%Q
  end.

(** What [huber_loss] may raise: the failed assertion, or the
    [RuntimeError] that names the unknown backend. *)
Inductive huber_exn : Type :=
  | Raised (e : exn)
  | RuntimeError (backend : string).

Section Huber.
(** A tensor of a fixed shape, as its elements by index. *)
Context {I : Type}.

(** The backend operations, element by element. *)
Definition K_square (x : I → Q) : I → Q := λ i, (x i * x i)%Q.
Definition K_abs (x : I → Q) : I → Q := λ i, Qabs (x i).

(** [tf.select], [tf.where] and [T.switch]: the first tensor where the
    condition holds, the second elsewhere. *)
Definition select (cond : I → bool) (a b : I → Q) : I → Q :=
  λ i, if cond i then a i else b i.

(** [K_backend] is the string [K.backend()] returns; [tf_has_select] is
    [hasattr(tf, 'select')]. *)
Definition huber_loss (K_backend : string) (tf_has_select : bool)
    (y_true y_pred : I → Q) (clip_value : pyfloat)
  : huber_exn + (I → Q) :=
  if negb (float_gt0 clip_value) then inl (Raised AssertionError)
  else
    let x := λ i, (y_true i - y_pred i)%Q in
    if np_isinf clip_value then inr (λ i, ((1 # 2) * K_square x i)%Q)
    else
      let c := float_val clip_value in
      let condition := λ i, negb (Qle_bool c (K_abs x i)) in
      let squared_loss := λ i, ((1 # 2) * K_square x i)%Q in
      let linear_loss := λ i, (c * (K_abs x i - (1 # 2) * c))%Q in
      if String.eqb K_backend "tensorflow" then
        if tf_has_select then inr (select condition squared_loss linear_loss)
        else inr (select condition squared_loss linear_loss)
      else if String.eqb K_backend "theano" then
        inr (select condition squared_loss linear_loss)
      else inl (RuntimeError K_backend).

End Huber.

(** A backend the function knows. *)
Definition known (K_backend : string) : Prop :=
  K_backend = "tensorflow" ∨ K_backend = "theano".

(** The loss of one element with error [x], for a finite clip value [c]:
    what [select condition squared_loss linear_loss] holds at an index. *)
Definition huber_elem (c x : Q) : Q :=
  if negb (Qle_bool c (Qabs x)) then ((1 # 2) * (x * x))%Q
  else (c * (Qabs x - (1 # 2) * c))%Q.

(** ** clone_model and clone_model_customize *)

Record model_config (Cfg : Type) : Type := {
  cfg_class_name : string;
  cfg_config : Cfg
}.
Arguments cfg_class_name {Cfg} _.
Arguments cfg_config {Cfg} _.

Section Clone.
(** The framework, as far as the two functions use it: the class name, the
    configuration and the weights of a model, [model_from_config], which
    builds a new model or raises, and [set_weights] on that new model. *)
Context {Model Cfg Weights Custom : Type}.
Variable class_name_of : Model → string.
Variable get_config : Model → Cfg.
Variable get_weights : Model → Weights.
Variable model_from_config : model_config Cfg → Custom → res Model.
Variable set_weights : Model → Weights → res Model.

Definition clone_model (m : Model) (custom_objects : Custom) : res Model :=
  let config := {| cfg_class_name := class_name_of m;
                   cfg_config := get_config m |} in
  clone ← model_from_config config custom_objects;
  set_weights clone (get_weights m).

Definition clone_model_customize (m : Model) (class_name : option string)
    (config : option Cfg) (weights : option Weights) (custom_objects : Custom)
  : res Model :=
  let class_name := match class_name with
                    | None => class_name_of m
                    | Some c => c
                    end in
  let config := match config with
                | None => get_config m
                | Some c => c
                end in
  let weights := match weights with
                 | None => get_weights m
                 | Some w => w
                 end in
  let config := {| cfg_class_name := class_name; cfg_config := config |} in
  clone ← model_from_config config custom_objects;
  set_weights clone weights.

End Clone.

(** ** AdditionalUpdatesOptimizer *)

(** Lists of updates live in a store and are passed by reference; the
    state of the object is that store and the attribute [self.updates]. *)
Abbreviation list_store U := (gmap nat (list U)) (only parsing).
Abbreviation optimizer_state U :=
  (gmap nat (list U) * option nat)%type (only parsing).

Section Additional_updates.
Context {U : Type}.

(** [l += a] on lists: [l] is extended in place by the elements of [a]. *)
Definition list_iadd (l a : loc) : M (list_store U) unit :=
  λ h, match h !! l, h !! a with
       | Some xs, Some ys => (inr tt, <[l := xs ++ ys]> h)
       | _, _ => (raise DanglingRef, h)
       end.

(** A computation on the store of lists, run inside the object. *)
Definition in_store {A : Type} (m : M (list_store U) A)
  : M (optimizer_state U) A :=
  λ st, let '(o, h') := m st.1 in (o, (h', st.2)).

Definition set_self_updates (l : loc) : M (optimizer_state U) unit :=
  λ st, (inr tt, (st.1, Some l)).

Definition self_updates : M (optimizer_state U) loc :=
  λ st, match st.2 with
        | Some l => (inr l, st)
        | None => (raise DanglingRef, st)
        end.

(** [get_updates]: [inner_get_updates] is
    [self.optimizer.get_updates(params, constraints, loss)]. *)
Definition get_updates (inner_get_updates : M (list_store U) loc)
    (additional_updates : loc) : M (optimizer_state U) loc :=
  updates ← in_store inner_get_updates;
  _ ← in_store (list_iadd updates additional_updates);
  _ ← set_self_updates updates;
  self_updates.

(** Two inner optimizers: one builds a new list of its updates [us] on
    every call, the other hands out the list it keeps at [r]. *)
Definition inner_new_list (us : list U) : M (list_store U) loc :=
  λ h, let l := fresh (dom h) in (inr l, <[l := us]> h).

Definition inner_kept_list (r : loc) : M (list_store U) loc :=
  λ h, (inr r, h).

End Additional_updates.

(** ** Inputs on integers, for the instances below *)

(** An evaluator: the value of state [k] is [k]. *)
Definition critic_Z : @critic_t Z nat := map Z.of_nat.

(** A reward array of shape [(2, 1)]: two rows of one element. *)
Definition reward_Z_column : ndarray Z :=
  {| nd_shape := [2; 1]; nd_data := [1; 2]%Z; nd_wf := eq_refl |}.

(** A store with one array of two observations, at reference [0]. *)
Definition store_Z_two : store Z := {[ 0 := [[1]; [2]]%Z ]}.

(** Two models of three weights each: two trainable ones and one layer with
    one weight that is not. *)
Definition target_Z : model Z :=
  {| trainable_weights := [1; 2]%Z;
     layers := [ {| non_trainable_weights := [3]%Z |} ] |}.

Definition source_Z : model Z :=
  {| trainable_weights := [4; 5]%Z;
     layers := [ {| non_trainable_weights := [6]%Z |} ] |}.

(** Two tensors indexed by [nat]: the index as a number, and zero. *)
Definition y_index : nat → Q := λ i, inject_Z (Z.of_nat i).
Definition y_zero : nat → Q := λ _, 0%Q.

(** A store of lists of updates: the inner list at [0], the additional
    updates at [1]. *)
Definition updates_Z : list_store Z := {[ 0 := [10]%Z; 1 := [20; 30]%Z ]}.

(** * Properties *)

(** ** The two routines on small inputs *)

Example windowing_Z_1 :
  state_windowing (F := Z) 0 2 {[ 0 := [[1]; [2]; [3]]%Z ]}
  = (inr [[[0]; [1]]; [[1]; [2]]; [[2]; [3]]]%Z,
     {[ 0 := [[1]; [2]; [3]]%Z; 1 := [[0]; [1]; [2]]%Z;
        2 := [[1]; [2]; [3]]%Z ]}).
Proof. vm_compute. reflexivity. Qed.

Example gae_Z_1 :
  GeneralizedAdvantageEstimator critic_Z [0; 0; 0] [1; 2]%Z 3%Z 2%Z []
  = (inr [13; 2]%Z, [[0; 0; 0]]).
Proof. reflexivity. Qed.

Example gae_Z_2 :
  GeneralizedAdvantageEstimator critic_Z [0; 0; 0] [1; 2; 3]%Z 3%Z 2%Z []
  = (raise AssertionError, []).
Proof. reflexivity. Qed.

(** ** Python indexing and the monads *)

Lemma py_index_nonneg {A : Type} (l : list A) (k : nat) (x : A) :
  l !! k = Some x → py_index l (Z.of_nat k) = inr x.
Proof.
  intros Hk. unfold py_index.
  destruct (Z.ltb_spec (Z.of_nat k) 0) as [Hneg|_]; [lia|].
  destruct (Z.ltb_spec (Z.of_nat k) 0) as [Hneg|_]; [lia|].
  by rewrite Nat2Z.id, Hk.
Qed.

Lemma py_index_last {A : Type} (l : list A) (x : A) :
  py_index (l ++ [x]) (-1) = inr x.
Proof.
  unfold py_index. simpl. rewrite length_app. simpl.
  destruct (Z.ltb_spec (-1 + Z.of_nat (length l + 1)) 0) as [Hneg|_]; [lia|].
  replace (Z.to_nat (-1 + Z.of_nat (length l + 1))) with (length l) by lia.
  by rewrite list_lookup_middle.
Qed.

Lemma py_index_cases {A : Type} (l : list A) (k : Z) :
  py_index l k = raise IndexError ∨ ∃ x, py_index l k = inr x.
Proof.
  unfold py_index.
  destruct (_ <? 0)%Z; [by left|].
  destruct (l !! _); [right; eauto | by left].
Qed.

Lemma M_bind_run {S A B : Type} (m : M S A) (f : A → M S B) (st : S) :
  (m ≫= f) st
  = match m st with
    | (inl e, st') => (inl e, st')
    | (inr v, st') => f v st'
    end.
Proof. reflexivity. Qed.

Lemma for_each_cons {A I : Type} (body : A → I → res A) acc i idx :
  for_each body acc (i :: idx) = acc' ← body acc i; for_each body acc' idx.
Proof. reflexivity. Qed.

(** ** The advantage estimator *)

Section GAE_facts.
Context {F : Type} {SF : Scalar F} {St : Type}.
Implicit Types (critic : @critic_t F St) (delta reward value : list F).
Implicit Types (gamma lamb r : F) (log : @call_log St).

Hypothesis fadd_comm : ∀ x y : F, fadd x y = fadd y x.
Hypothesis fmul_comm : ∀ x y : F, fmul x y = fmul y x.
Hypothesis fadd_0_l : ∀ x : F, fadd f0 x = x.
Hypothesis fmul_0_l : ∀ x : F, fmul f0 x = f0.
Hypothesis fmul_0_r : ∀ x : F, fmul x f0 = f0.
Hypothesis fmul_1_r : ∀ x : F, fmul x f1 = x.

(** The last element of the accumulator is the newest advantage, or the
    initial [0]. *)
Lemma result_last (rest : list F) :
  py_index (f0 :: reverse rest) (-1) = inr (hd f0 rest).
Proof using Type.
  destruct rest as [|a rest]; [done|].
  rewrite reverse_cons, app_comm_cons. apply py_index_last.
Qed.

(** One round, when both indices are in range. *)
Lemma gae_body_ok delta r (n : Z) (rest : list F) (i k : nat) (d : F) :
  delta !! k = Some d →
  (n - 1 - Z.of_nat i)%Z = Z.of_nat k →
  gae_body delta r n (f0 :: reverse rest) i
  = inr (f0 :: reverse (fadd (fmul (hd f0 rest) r) d :: rest)).
Proof using Type.
  intros Hd Hk. unfold gae_body.
  rewrite result_last, Hk, (py_index_nonneg _ _ _ Hd).
  by rewrite (reverse_cons rest).
Qed.

(** Loop invariant: after [i] rounds the accumulator holds [0] followed by
    the advantages of the last [i] residuals, newest first. *)
Lemma loop_backward delta r (m : nat) : ∀ i : nat,
  i + m = length delta →
  for_each (gae_body delta r (Z.of_nat (length delta)))
           (f0 :: reverse (backward r (drop (length delta - i) delta)))
           (seq i m)
  = inr (f0 :: reverse (backward r delta)).
Proof using Type.
  induction m as [|m IH]; intros i Him.
  - simpl. replace (length delta - i) with 0 by lia. by rewrite drop_0.
  - destruct (lookup_lt_is_Some_2 delta (length delta - 1 - i)) as [d Hd];
      [lia|].
    rewrite <- cons_seq, for_each_cons.
    rewrite (gae_body_ok _ _ _ _ _ _ _ Hd) by lia.
    rewrite <- (IH (S i)) by lia.
    replace (length delta - S i) with (length delta - 1 - i) by lia.
    rewrite (drop_S _ _ _ Hd).
    by replace (S (length delta - 1 - i)) with (length delta - i) by lia.
Qed.

(** A round raises [IndexError] or appends one element. *)
Lemma gae_body_cases delta r (n : Z) (acc : list F) (i : nat) :
  gae_body delta r n acc i = raise IndexError
  ∨ ∃ x, gae_body delta r n acc i = inr (acc ++ [x]).
Proof using Type.
  unfold gae_body.
  destruct (py_index_cases acc (-1)) as [->|[a ->]]; [by left|].
  destruct (py_index_cases delta (n - 1 - Z.of_nat i)) as [->|[d ->]];
    [by left|].
  right. by eexists.
Qed.

(** Each round appends one element, whatever [delta] holds. *)
Lemma loop_length delta r (n : Z) (idx : list nat) : ∀ acc out,
  for_each (gae_body delta r n) acc idx = inr out →
  length out = length acc + length idx.
Proof using Type.
  induction idx as [|i idx IH]; intros acc out.
  - intros [= <-]. simpl. lia.
  - rewrite for_each_cons.
    destruct (gae_body_cases delta r n acc i) as [->|[x ->]]; [done|].
    intros Hout. apply IH in Hout. rewrite Hout, length_app. simpl. lia.
Qed.

(** The loop raises nothing but [IndexError]. *)
Lemma loop_cases delta r (n : Z) (idx : list nat) : ∀ acc,
  for_each (gae_body delta r n) acc idx = raise IndexError
  ∨ ∃ out, for_each (gae_body delta r n) acc idx = inr out.
Proof using Type.
  induction idx as [|i idx IH]; intros acc; [right; by eexists|].
  rewrite for_each_cons.
  destruct (gae_body_cases delta r n acc i) as [->|[x ->]]; [by left|].
  apply IH.
Qed.

(** *** The residuals *)

Lemma np_binop_same_length (f : F → F → F) (a b : list F) :
  length a = length b → np_binop f a b = inr (zip_with f a b).
Proof using Type. intros Hab. unfold np_binop. by rewrite bool_decide_true. Qed.

Lemma np_binop_cases (f : F → F → F) (a b : list F) :
  np_binop f a b = raise ValueError ∨ ∃ out, np_binop f a b = inr out.
Proof using Type.
  unfold np_binop. case_bool_decide; [right; by eexists|].
  destruct a as [|x [|??]], b as [|y [|??]]; (by left) || (right; by eexists).
Qed.

Lemma td_residuals reward value gamma :
  length value = length reward + 1 →
  zip_with fsub (zip_with fadd reward (map (fmul gamma) (np_tail value)))
           (np_init value)
  = map (td_residual reward value gamma) (seq 0 (length reward)).
Proof using Type.
  intros Hv. apply list_eq. intros i.
  unfold np_tail, np_init, td_residual.
  rewrite !lookup_zip_with, !list_lookup_fmap, lookup_drop.
  destruct (decide (i < length reward)) as [Hi|Hi].
  - rewrite lookup_seq_lt by done. simpl.
    rewrite lookup_take_lt by lia.
    destruct (lookup_lt_is_Some_2 reward i Hi) as [x Hx].
    destruct (lookup_lt_is_Some_2 value i ltac:(lia)) as [v Hv0].
    destruct (lookup_lt_is_Some_2 value (S i) ltac:(lia)) as [v' Hv1].
    rewrite Hx, Hv0, Hv1. simpl.
    rewrite !nth_lookup, Hx, Hv0.
    by replace (i + 1) with (S i) by lia; rewrite Hv1.
  - rewrite lookup_seq_ge by lia. simpl.
    by rewrite (lookup_ge_None_2 reward) by lia.
Qed.

(** *** Running the estimator *)

(** A violated shape assertion: nothing else happens. *)
Lemma GAE_assert_fails critic (states : list St) reward gamma lamb log :
  Z.of_nat (length reward) ≠ (Z.of_nat (length states) - 1)%Z →
  GeneralizedAdvantageEstimator critic states reward gamma lamb log
  = (raise AssertionError, log).
Proof using Type.
  intros Hne. unfold GeneralizedAdvantageEstimator, py_assert.
  by rewrite bool_decide_false.
Qed.

(** With the assertion passed: one evaluator call, no [AssertionError],
    and a result, if any, of the length of [reward]. *)
Lemma GAE_assert_passes critic (states : list St) reward gamma lamb log :
  Z.of_nat (length reward) = (Z.of_nat (length states) - 1)%Z →
  ∃ o, GeneralizedAdvantageEstimator critic states reward gamma lamb log
       = (o, log ++ [states])
       ∧ o ≠ raise AssertionError
       ∧ ∀ A, o = inr A → length A = length reward.
Proof using Type.
  intros Heq. unfold GeneralizedAdvantageEstimator, py_assert.
  rewrite bool_decide_true by done.
  unfold mbind, M_bind, lift, predict_on_batch. simpl.
  destruct (np_binop_cases fadd reward
              (map (fmul gamma) (np_tail (critic states)))) as [->|[rg ->]];
    [by eexists|].
  destruct (np_binop_cases fsub rg (np_init (critic states)))
    as [->|[delta ->]]; [by eexists|].
  destruct (loop_cases delta (fmul gamma lamb)
              (Z.of_nat (length states) - 1)
              (py_range (Z.of_nat (length states) - 1)) [f0])
    as [->|[out Hout]]; [by eexists|].
  rewrite Hout. eexists. split; [done|]. split; [done|].
  intros A [= <-]. apply loop_length in Hout.
  unfold py_slice_rev_to0, py_range in *.
  rewrite length_reverse, length_drop, Hout, length_seq. simpl. lia.
Qed.

(** With one value per state, the estimator returns the backward recurrence
    over the residuals. *)
Lemma GAE_run critic (states : list St) reward gamma lamb log :
  length states = length reward + 1 →
  length (critic states) = length states →
  GeneralizedAdvantageEstimator critic states reward gamma lamb log
  = (inr (backward (fmul gamma lamb)
            (map (td_residual reward (critic states) gamma)
                 (seq 0 (length reward)))),
     log ++ [states]).
Proof using Type.
  intros Hs Hv. unfold GeneralizedAdvantageEstimator, py_assert.
  rewrite bool_decide_true by lia.
  unfold mbind, M_bind, lift, predict_on_batch. simpl.
  rewrite np_binop_same_length
    by (unfold np_tail; rewrite length_map, length_drop; lia).
  rewrite np_binop_same_length
    by (unfold np_tail, np_init;
        rewrite !length_zip_with, length_map, length_drop, length_take; lia).
  rewrite td_residuals by lia.
  set (delta := map _ (seq 0 (length reward))).
  assert (Hd : length delta = length reward)
    by (unfold delta; by rewrite length_map, length_seq).
  replace (Z.of_nat (length states) - 1)%Z with (Z.of_nat (length delta))
    by lia.
  unfold py_range. rewrite Nat2Z.id.
  pose proof (loop_backward delta (fmul gamma lamb) (length delta) 0
                ltac:(lia)) as Hloop.
  rewrite Nat.sub_0_r, drop_all in Hloop. simpl in Hloop.
  rewrite reverse_nil in Hloop. rewrite Hloop. unfold py_slice_rev_to0. simpl.
  by rewrite drop_0, reverse_involutive.
Qed.

(** *** The backward recurrence *)

Lemma hd_nth_0 (l : list F) : hd f0 l = nth 0 l f0.
Proof using Type. by destruct l. Qed.

Lemma length_backward r delta : length (backward r delta) = length delta.
Proof using Type. induction delta; simpl; congruence. Qed.

Lemma backward_nth r delta : ∀ i, i < length delta →
  nth i (backward r delta) f0
  = fadd (fmul (nth (S i) (backward r delta) f0) r) (nth i delta f0).
Proof using Type.
  induction delta as [|d ds IH]; intros i Hi; simpl in *; [lia|].
  destruct i as [|i]; [by rewrite hd_nth_0|].
  apply IH. lia.
Qed.

(** No trace of later residuals when the decay is zero. *)
Lemma backward_zero delta : backward f0 delta = delta.
Proof using fadd_0_l fmul_0_r.
  induction delta as [|d ds IH]; simpl; [done|].
  by rewrite IH, fmul_0_r, fadd_0_l.
Qed.

(** The plain sum of the residuals from [i] on when the decay is one. *)
Lemma backward_one delta : ∀ i,
  nth i (backward f1 delta) f0 = foldr fadd f0 (drop i delta).
Proof using fadd_comm fmul_1_r.
  induction delta as [|d ds IH]; intros i; simpl.
  - by destruct i.
  - destruct i as [|i]; simpl; [|apply IH].
    by rewrite fmul_1_r, hd_nth_0, IH, drop_0, fadd_comm.
Qed.

(** *** The claims on the estimator *)

(** C1.  For [n >= 1], [n + 1] states, [n] rewards and the [n + 1] values
    of the evaluator, the estimator returns [A[0..n-1]] with
    [A[n-1] = delta[n-1]] and [A[i] = delta[i] + gamma*lamb*A[i+1]] for
    [i < n - 1], where
    [delta[i] = rewards[i] + gamma*value[i+1] - value[i]]. *)
Theorem C1_gae_recurrence critic (states : list St) reward gamma lamb log
    (n : nat) :
  1 ≤ n →
  length states = n + 1 →
  length reward = n →
  length (critic states) = n + 1 →
  ∃ A : list F,
    GeneralizedAdvantageEstimator critic states reward gamma lamb log
    = (inr A, log ++ [states])
    ∧ length A = n
    ∧ nth (n - 1) A f0 = td_residual reward (critic states) gamma (n - 1)
    ∧ ∀ i, i + 1 < n →
        nth i A f0
        = fadd (td_residual reward (critic states) gamma i)
               (fmul (fmul gamma lamb) (nth (i + 1) A f0)).
Proof using fadd_comm fmul_comm fadd_0_l fmul_0_l.
  intros Hn Hs Hr Hv. eexists. split; [apply GAE_run; lia|].
  set (delta := map _ (seq 0 (length reward))).
  assert (Hd : length delta = n)
    by (unfold delta; rewrite length_map, length_seq; lia).
  assert (Hnth : ∀ i, i < n →
            nth i delta f0 = td_residual reward (critic states) gamma i).
  { intros i Hi. apply nth_lookup_Some. unfold delta.
    rewrite list_lookup_fmap, lookup_seq_lt by lia. done. }
  split; [by rewrite length_backward|]. split.
  - rewrite backward_nth by lia.
    rewrite (nth_overflow (backward _ _)) by (rewrite length_backward; lia).
    rewrite fmul_0_l, fadd_0_l. apply Hnth. lia.
  - intros i Hi. rewrite backward_nth by lia.
    rewrite Hnth by lia.
    replace (S i) with (i + 1) by lia.
    by rewrite fadd_comm, (fmul_comm (nth _ _ _)).
Qed.

(** On a one-dimensional reward, the estimator raises the assertion error
    exactly when the length of [reward] is not the length of the states
    minus 1; it then has called no evaluator (the log is unchanged) and has
    no result. *)
Lemma GAE_flat_assertion critic (states : list St) reward gamma lamb log :
  ((GeneralizedAdvantageEstimator critic states reward gamma lamb log).1
     = raise AssertionError
   ↔ Z.of_nat (length reward) ≠ (Z.of_nat (length states) - 1)%Z)
  ∧ (Z.of_nat (length reward) ≠ (Z.of_nat (length states) - 1)%Z →
     GeneralizedAdvantageEstimator critic states reward gamma lamb log
     = (raise AssertionError, log)).
Proof using Type.
  split; [split|].
  - intros Hraise Heq.
    destruct (GAE_assert_passes critic states reward gamma lamb log Heq)
      as (o & Hrun & Hne & _).
    rewrite Hrun in Hraise. by apply Hne.
  - intros Hne. by rewrite GAE_assert_fails.
  - apply GAE_assert_fails.
Qed.

(** C5.  With [lamb = 0] the estimator returns the residuals
    [delta[i] = rewards[i] + gamma*value[i+1] - value[i]], [i] in
    [0..n-1], themselves. *)
Theorem C5_gae_lamb_zero critic (states : list St) reward gamma log (n : nat) :
  1 ≤ n →
  length states = n + 1 →
  length reward = n →
  length (critic states) = n + 1 →
  GeneralizedAdvantageEstimator critic states reward gamma f0 log
  = (inr (map (td_residual reward (critic states) gamma) (seq 0 n)),
     log ++ [states]).
Proof using fadd_0_l fmul_0_r.
  intros Hn Hs Hr Hv. rewrite GAE_run by lia.
  by rewrite fmul_0_r, backward_zero, Hr.
Qed.

(** C6.  With [gamma = 1] and [lamb = 1] the estimator returns
    [A[i] = sum_{k=i}^{n-1} delta[k]]: the cumulative sum of the
    residuals from the end. *)
Theorem C6_gae_cumulative_sum critic (states : list St) reward log :
  length states = length reward + 1 →
  length (critic states) = length states →
  ∃ A : list F,
    GeneralizedAdvantageEstimator critic states reward f1 f1 log
    = (inr A, log ++ [states])
    ∧ length A = length reward
    ∧ ∀ i, i < length reward →
        nth i A f0
        = sum_from_to (td_residual reward (critic states) f1) i
                      (length reward).
Proof using fadd_comm fmul_1_r.
  intros Hs Hv. eexists. split; [by apply GAE_run|].
  split; [by rewrite length_backward, length_map, length_seq|].
  intros i Hi. rewrite fmul_1_r, backward_one.
  unfold sum_from_to. by rewrite <- fmap_drop, drop_seq.
Qed.

(** C7.  Under the shape precondition [len(rewards) == len(states) - 1],
    no rewards at all included, whatever the estimator returns has
    [len(rewards)] entries; and it does return when the evaluator gives
    one value per state. *)
Theorem C7_gae_length critic (states : list St) reward gamma lamb log :
  Z.of_nat (length reward) = (Z.of_nat (length states) - 1)%Z →
  (∀ A, (GeneralizedAdvantageEstimator critic states reward gamma lamb log).1
        = inr A → length A = length reward)
  ∧ (length (critic states) = length states →
     ∃ A, GeneralizedAdvantageEstimator critic states reward gamma lamb log
          = (inr A, log ++ [states])
          ∧ length A = length reward).
Proof using Type.
  intros Hpre. split.
  - intros A HA.
    destruct (GAE_assert_passes critic states reward gamma lamb log Hpre)
      as (o & Hrun & _ & Hlen).
    rewrite Hrun in HA. by apply Hlen.
  - intros Hv. eexists. split; [apply GAE_run; [lia|done]|].
    by rewrite length_backward, length_map, length_seq.
Qed.

End GAE_facts.

(** ** The windowing routine *)

Section Windowing_facts.
Context {F : Type} {SF : Scalar F}.
Implicit Types (a b : array F) (h : store F) (l x y : loc).
Implicit Types (s t i j d : nat) (W : Z).

(** *** Rotation and zeroing on values *)

Lemma length_roll_rows a s : length (roll_rows a s) = length a.
Proof.
  unfold roll_rows. destruct (s mod _); [done|].
  rewrite length_app, length_drop, length_take. lia.
Qed.

Lemma roll_rows_lookup a s t :
  s ≤ t → t < length a → roll_rows a s !! t = a !! (t - s).
Proof.
  intros Hst Ht. unfold roll_rows.
  destruct (length a) as [|T'] eqn:HT; [lia|]. rewrite <- HT.
  rewrite Nat.mod_small by lia.
  destruct s as [|s']; [by rewrite Nat.sub_0_r|].
  rewrite lookup_app_r by (rewrite length_drop; lia).
  rewrite length_drop, lookup_take_lt by lia.
  f_equal. lia.
Qed.

Lemma rect_roll_rows d a s : rect d a → rect d (roll_rows a s).
Proof.
  unfold rect, roll_rows. intros Ha. destruct (s mod _); [done|].
  apply Forall_app. split; [by apply Forall_drop | by apply Forall_take].
Qed.

Lemma length_zero_prefix a s : length (zero_prefix a s) = length a.
Proof.
  unfold zero_prefix.
  rewrite length_app, length_map, length_take, length_drop. lia.
Qed.

Lemma zero_prefix_lookup_ge a s t :
  s ≤ t → zero_prefix a s !! t = a !! t.
Proof.
  intros Hst. unfold zero_prefix.
  destruct (decide (length a ≤ s)) as [Hs|Hs].
  - rewrite lookup_ge_None_2
      by (rewrite length_app, length_map, length_take, length_drop; lia).
    symmetry. apply lookup_ge_None_2. lia.
  - rewrite lookup_app_r by (rewrite length_map, length_take; lia).
    rewrite length_map, length_take, lookup_drop. f_equal. lia.
Qed.

Lemma zero_prefix_lookup_lt a s t :
  t < s → zero_prefix a s !! t = map (λ _, f0) <$> a !! t.
Proof.
  intros Hts. unfold zero_prefix.
  destruct (decide (t < length a)) as [Ht|Ht].
  - rewrite lookup_app_l by (rewrite length_map, length_take; lia).
    by rewrite list_lookup_fmap, lookup_take_lt.
  - rewrite (lookup_ge_None_2 a) by lia.
    apply lookup_ge_None_2.
    rewrite length_app, length_map, length_take, length_drop. lia.
Qed.

Lemma rect_zero_prefix d a s : rect d a → rect d (zero_prefix a s).
Proof.
  unfold rect, zero_prefix. intros Ha. apply Forall_app. split.
  - apply Forall_fmap. eapply Forall_impl; [by apply Forall_take|].
    intros r Hr. simpl. by rewrite length_map.
  - by apply Forall_drop.
Qed.

Lemma length_pad_rows a s : length (pad_rows a s) = length a.
Proof. unfold pad_rows. by rewrite length_zero_prefix, length_roll_rows. Qed.

Lemma rect_pad_rows d a s : rect d a → rect d (pad_rows a s).
Proof. intros Ha. by apply rect_zero_prefix, rect_roll_rows. Qed.

(** At and after row [s] the padded array holds the rows of [a], [s]
    steps late. *)
Lemma pad_rows_past a s t :
  s ≤ t → t < length a → pad_rows a s !! t = a !! (t - s).
Proof.
  intros Hst Ht. unfold pad_rows.
  rewrite zero_prefix_lookup_ge by done. by apply roll_rows_lookup.
Qed.

(** Before row [s] every element is zero, also when [s] exceeds the
    length of [a]: the slice [0:s] then covers all rows. *)
Lemma pad_rows_zero a s t :
  t < s → Forall (λ v, v = f0) (nth t (pad_rows a s) []).
Proof.
  intros Hts. rewrite nth_lookup. unfold pad_rows.
  rewrite zero_prefix_lookup_lt by done.
  destruct (roll_rows a s !! t) as [r|]; simpl; [|done].
  apply Forall_fmap. by apply Forall_true.
Qed.

Lemma zero_row_replicate d (r : row F) :
  length r = d → Forall (λ v, v = f0) r → r = replicate d f0.
Proof.
  intros <- Hr. induction Hr as [|v r -> _ IH]; simpl; [done|].
  by rewrite <- IH.
Qed.

Lemma rect_nth d a t : rect d a → t < length a → length (nth t a []) = d.
Proof.
  intros Ha Ht. destruct (lookup_lt_is_Some_2 a t Ht) as [r Hr].
  rewrite (nth_lookup_Some _ _ _ _ Hr).
  by apply (Forall_lookup_1 _ _ _ _ Ha Hr).
Qed.

Lemma rect_shape d a : rect d a → map length a = replicate (length a) d.
Proof.
  intros Ha. induction Ha as [|r a Hr _ IH]; simpl; [done|].
  by rewrite Hr, IH.
Qed.

(** *** The store *)

Lemma fresh_lookup h : h !! fresh (dom h) = None.
Proof. apply not_elem_of_dom, is_fresh. Qed.

(** [naive_pad] allocates one array, rotated then zeroed, and writes to
    nothing else. *)
Lemma naive_pad_run h x a s :
  h !! x = Some a →
  naive_pad x s h
  = (inr (fresh (dom h)), <[fresh (dom h) := pad_rows a s]> h).
Proof.
  intros Hx.
  unfold naive_pad, np_roll, setitem_zero, load, alloc, store_at.
  unfold mbind, M_bind, mret, M_ret. rewrite Hx. simpl.
  rewrite lookup_insert_eq. by rewrite insert_insert_eq.
Qed.

Lemma naive_pad_dangling h x s :
  h !! x = None → naive_pad x s h = (raise DanglingRef, h).
Proof.
  intros Hx. unfold naive_pad, np_roll, load.
  unfold mbind, M_bind. by rewrite Hx.
Qed.

Lemma mapM_M_cons {S A B : Type} (f : A → M S B) (i : A) (idx : list A)
    (st : S) :
  mapM f (i :: idx) st
  = match f i st with
    | (inl e, st') => (inl e, st')
    | (inr y, st') =>
        match mapM f idx st' with
        | (inl e, st'') => (inl e, st'')
        | (inr k, st'') => (inr (y :: k), st'')
        end
    end.
Proof.
  simpl. unfold mbind, M_bind, mret, M_ret.
  destruct (f i st) as [[e|y] st']; [done|].
  by destruct (mapM f idx st') as [[e|k] st''].
Qed.

(** The list comprehension: one padded copy per shift, each at its own
    new reference; what the store held before stays. *)
Lemma mapM_naive_pad x a (shifts : list nat) : ∀ h,
  h !! x = Some a →
  ∃ (refs : list loc) h',
    mapM (naive_pad x) shifts h = (inr refs, h')
    ∧ h ⊆ h'
    ∧ Forall2 (λ ref s, h' !! ref = Some (pad_rows a s)) refs shifts.
Proof.
  induction shifts as [|s shifts IH]; intros h Hx.
  - exists [], h. by split_and!.
  - rewrite mapM_M_cons, (naive_pad_run _ _ _ _ Hx).
    set (y := fresh (dom h)). set (h1 := <[y := pad_rows a s]> h).
    assert (Hsub : h ⊆ h1) by apply insert_subseteq, fresh_lookup.
    destruct (IH h1) as (refs & h' & -> & Hsub' & Hrefs).
    { by apply (lookup_weaken h). }
    exists (y :: refs), h'. split_and!; [done|by etrans|].
    constructor; [|done].
    apply (lookup_weaken h1); [|done]. apply lookup_insert_eq.
Qed.

Lemma mapM_load_run h (refs : list loc) (arrays : list (array F)) :
  Forall2 (λ ref b, h !! ref = Some b) refs arrays →
  mapM load refs h = (inr arrays, h).
Proof.
  induction 1 as [|ref b refs arrays Hb _ IH]; [done|].
  rewrite mapM_M_cons. unfold load at 1. by rewrite Hb, IH.
Qed.

(** Whatever the window length, the call allocates the padded copies,
    stacks them, and leaves the arrays of the initial store as they were. *)
Lemma state_windowing_run h x a W :
  h !! x = Some a →
  ∃ h', state_windowing x W h
        = (stack_axis1 (map (pad_rows a) (reverse (py_range W))), h')
        ∧ h ⊆ h'.
Proof.
  intros Hx. unfold state_windowing.
  destruct (mapM_naive_pad x a (reverse (py_range W)) h Hx)
    as (refs & h' & Hpads & Hsub & Hrefs).
  exists h'. split; [|done].
  rewrite M_bind_run, Hpads. unfold np_stack_axis1.
  rewrite M_bind_run.
  rewrite (mapM_load_run h' refs (map (pad_rows a) (reverse (py_range W)))).
  - done.
  - by apply Forall2_fmap_r.
Qed.

(** *** Stacking *)

Lemma stack_axis1_inr a (shifts : list nat) (out : list (array F)) :
  stack_axis1 (map (pad_rows a) shifts) = inr out →
  out = map (λ t, map (λ i, nth t (pad_rows a i) []) shifts)
            (seq 0 (length a)).
Proof.
  destruct shifts as [|s shifts]; [done|]. simpl.
  case_bool_decide; [|done]. intros [= <-].
  rewrite length_pad_rows. apply map_ext. intros t.
  f_equal. by rewrite map_map.
Qed.

Lemma stack_axis1_rect d a (shifts : list nat) :
  rect d a → shifts ≠ [] →
  stack_axis1 (map (pad_rows a) shifts)
  = inr (map (λ t, map (λ i, nth t (pad_rows a i) []) shifts)
             (seq 0 (length a))).
Proof.
  intros Ha Hne. destruct shifts as [|s shifts]; [done|].
  destruct (stack_axis1 (map (pad_rows a) (s :: shifts))) as [e|out] eqn:Hst.
  - exfalso. simpl in Hst. rewrite bool_decide_true in Hst; [done|].
    apply Forall_fmap, Forall_true. intros s'. simpl.
    rewrite !(rect_shape d) by by apply rect_pad_rows.
    by rewrite !length_pad_rows.
  - by rewrite (stack_axis1_inr _ _ _ Hst).
Qed.

Lemma reverse_range_nil W : (W ≤ 0)%Z → reverse (py_range W) = [].
Proof. intros HW. unfold py_range. by replace (Z.to_nat W) with 0 by lia. Qed.

Lemma reverse_range_lookup (n j : nat) :
  j < n → reverse (seq 0 n) !! j = Some (n - 1 - j).
Proof.
  intros Hj. rewrite reverse_lookup by (rewrite length_seq; lia).
  rewrite length_seq. apply lookup_seq. lia.
Qed.

Lemma length_windows a (n : nat) : length (windows a n) = length a.
Proof. unfold windows. by rewrite length_map, length_seq. Qed.

(** Entry [t] of the value returned, and its slices. *)
Lemma windows_lookup a (n t : nat) :
  t < length a →
  windows a n !! t
  = Some (map (λ i, nth t (pad_rows a i) []) (reverse (seq 0 n))).
Proof.
  intros Ht. unfold windows.
  by rewrite list_lookup_fmap, lookup_seq_lt.
Qed.

Lemma windows_slice a (n t j : nat) (entry : array F) (r : row F) :
  windows a n !! t = Some entry → entry !! j = Some r →
  t < length a ∧ j < n ∧ r = nth t (pad_rows a (n - 1 - j)) [].
Proof.
  intros Ht Hj.
  assert (Hlt : t < length a).
  { apply lookup_lt_Some in Ht. by rewrite length_windows in Ht. }
  rewrite windows_lookup in Ht by done. injection Ht as <-.
  assert (Hjn : j < n).
  { apply lookup_lt_Some in Hj.
    by rewrite length_map, length_reverse, length_seq in Hj. }
  rewrite list_lookup_fmap, reverse_range_lookup in Hj by done.
  injection Hj as <-. done.
Qed.

(** *** Running the routine *)

Lemma state_windowing_rect h x a d W :
  h !! x = Some a → rect d a → (1 ≤ W)%Z →
  ∃ h', state_windowing x W h = (inr (windows a (Z.to_nat W)), h')
        ∧ h ⊆ h'.
Proof.
  intros Hx Ha HW.
  destruct (state_windowing_run h x a W Hx) as (h' & Hrun & Hsub).
  exists h'. split; [|done]. rewrite Hrun. f_equal.
  apply (stack_axis1_rect d); [done|].
  unfold py_range. destruct (Z.to_nat W) as [|n] eqn:HWn; [lia|].
  rewrite seq_S, reverse_snoc. done.
Qed.

Lemma state_windowing_inr h x a W (out : list (array F)) h' :
  h !! x = Some a →
  state_windowing x W h = (inr out, h') →
  out = windows a (Z.to_nat W).
Proof.
  intros Hx Hrun.
  destruct (state_windowing_run h x a W Hx) as (h'' & Hrun' & _).
  rewrite Hrun in Hrun'. injection Hrun' as Hout _.
  symmetry in Hout. by apply stack_axis1_inr in Hout.
Qed.

Lemma pad_slice d a s t :
  rect d a → t < length a →
  nth t (pad_rows a s) []
  = if decide (s ≤ t) then nth (t - s) a [] else replicate d f0.
Proof.
  intros Ha Ht. case_decide as Hst.
  - by rewrite !nth_lookup, pad_rows_past.
  - apply zero_row_replicate; [|apply pad_rows_zero; lia].
    apply rect_nth; [by apply rect_pad_rows|by rewrite length_pad_rows].
Qed.

Lemma pad_rows_0 a : pad_rows a 0 = a.
Proof.
  apply list_eq. intros t. destruct (decide (t < length a)) as [Ht|Ht].
  - rewrite pad_rows_past by lia. f_equal. lia.
  - rewrite !lookup_ge_None_2; [done|lia|rewrite length_pad_rows; lia].
Qed.

Lemma last_slices_singletons a : last_slices (map (λ r, [r]) a) = inr a.
Proof.
  unfold last_slices. induction a as [|r a IH]; [done|].
  simpl. rewrite IH. done.
Qed.

(** *** The claims on the windowing routine *)

(** C2, what holds.  For every array of [T] observations and every window
    length [W] with [W - 1 >= T], the routine returns [T] entries in which
    no slice holds data from the future: a slice whose lagged index is
    negative is zero-filled, every other slice is the observation at
    [t - (W-1-j)]. *)
Theorem C2_no_future_leak h x (states : array F) d W :
  h !! x = Some states →
  rect d states →
  (Z.of_nat (length states) ≤ W - 1)%Z →
  ∃ (out : list (array F)) h',
    state_windowing x W h = (inr out, h')
    ∧ length out = length states
    ∧ ¬ leaks_future out W
    ∧ ∀ t j entry r, out !! t = Some entry → entry !! j = Some r →
        r = lagged_slice states d (Z.to_nat W) t j.
Proof.
  intros Hx Ha HW.
  destruct (state_windowing_rect h x states d W Hx Ha ltac:(lia))
    as (h' & Hrun & _).
  eexists _, h'. split; [done|].
  split; [apply length_windows|]. split.
  - intros (t & j & entry & r & Ht & Hj & Hlag & Hnz).
    destruct (windows_slice _ _ _ _ _ _ Ht Hj) as (Htl & Hjn & ->).
    apply Hnz, pad_rows_zero. lia.
  - intros t j entry r Ht Hj.
    destruct (windows_slice _ _ _ _ _ _ Ht Hj) as (Htl & Hjn & ->).
    by apply pad_slice.
Qed.

(** C3.  For [T >= 1] observations and [1 <= W <= T], the routine returns
    [T] entries; entry [t] stacks [W] slices, the most lagged first:
    slice [j] is [observations[t - (W-1-j)]] when that index is not
    negative, and zeros of the per-step shape otherwise. *)
Theorem C3_windowing_slices h x (states : array F) d (W : nat) :
  h !! x = Some states →
  rect d states →
  1 ≤ length states →
  1 ≤ W ≤ length states →
  ∃ (out : list (array F)) h',
    state_windowing x (Z.of_nat W) h = (inr out, h')
    ∧ length out = length states
    ∧ ∀ t, t < length states →
        ∃ entry, out !! t = Some entry
                 ∧ length entry = W
                 ∧ ∀ j, j < W →
                     entry !! j = Some (lagged_slice states d W t j).
Proof.
  intros Hx Ha HT HW.
  destruct (state_windowing_rect h x states d (Z.of_nat W) Hx Ha ltac:(lia))
    as (h' & Hrun & _).
  rewrite Nat2Z.id in Hrun.
  eexists _, h'. split; [done|].
  split; [apply length_windows|].
  intros t Ht. eexists. split; [by apply windows_lookup|].
  split; [by rewrite length_map, length_reverse, length_seq|].
  intros j Hj. rewrite list_lookup_fmap, reverse_range_lookup by done.
  simpl. f_equal. by apply pad_slice.
Qed.

(** C8.  For a non-empty array of observations and [window_len = 1],
    entry [t] of the result is the one-slice stack of [observations[t]],
    and the last slices of the entries are the observations again. *)
Theorem C8_window_one_roundtrip h x (states : array F) :
  h !! x = Some states →
  states ≠ [] →
  ∃ (out : list (array F)) h',
    state_windowing x 1 h = (inr out, h')
    ∧ out = map (λ r, [r]) states
    ∧ last_slices out = inr states.
Proof.
  intros Hx _.
  destruct (state_windowing_run h x states 1 Hx) as (h' & Hrun & _).
  assert (Hout : stack_axis1 (map (pad_rows states) (reverse (py_range 1)))
                 = inr (map (λ r, [r]) states)).
  { change (reverse (py_range 1)) with [0]. simpl.
    rewrite pad_rows_0. f_equal. apply list_eq. intros t.
    rewrite !list_lookup_fmap.
    destruct (decide (t < length states)) as [Ht|Ht].
    - rewrite lookup_seq_lt by done.
      destruct (lookup_lt_is_Some_2 states t Ht) as [r Hr].
      rewrite Hr. simpl. by rewrite (nth_lookup_Some _ _ _ _ Hr).
    - rewrite lookup_seq_ge by lia. by rewrite lookup_ge_None_2 by lia. }
  rewrite Hout in Hrun.
  eexists _, h'. split; [done|]. split; [done|].
  apply last_slices_singletons.
Qed.

(** C9.  For [T >= 1] observations and every window length [W]: the call
    raises when [W <= 0]; otherwise every slice of the result whose lag
    [W-1-j] is at least [T] is zero-filled in every entry. *)
Theorem C9_long_lag_zero h x (states : array F) d W :
  h !! x = Some states →
  rect d states →
  1 ≤ length states →
  ((W ≤ 0)%Z → ∃ h', state_windowing x W h = (raise ValueError, h'))
  ∧ ((1 ≤ W)%Z →
     ∃ (out : list (array F)) h',
       state_windowing x W h = (inr out, h')
       ∧ length out = length states
       ∧ ∀ t j, t < length states → (Z.of_nat j < W)%Z →
           (Z.of_nat (length states) ≤ W - 1 - Z.of_nat j)%Z →
           ∃ entry, out !! t = Some entry
                    ∧ entry !! j = Some (replicate d f0)).
Proof.
  intros Hx Ha HT. split; intros HW.
  - destruct (state_windowing_run h x states W Hx) as (h' & Hrun & _).
    exists h'. by rewrite Hrun, reverse_range_nil.
  - destruct (state_windowing_rect h x states d W Hx Ha HW)
      as (h' & Hrun & _).
    eexists _, h'. split; [done|].
    split; [apply length_windows|].
    intros t j Ht Hj Hlag. eexists. split; [by apply windows_lookup|].
    rewrite list_lookup_fmap, reverse_range_lookup by lia. simpl. f_equal.
    rewrite (pad_slice d) by done. by rewrite decide_False by lia.
Qed.

(** C10.  The call does not change its input: whatever the window length
    and the outcome, the array at the reference passed in is the same
    after the call. *)
Theorem C10_input_unchanged h x (states : array F) W :
  h !! x = Some states →
  (state_windowing x W h).2 !! x = Some states.
Proof.
  intros Hx.
  destruct (state_windowing_run h x states W Hx) as (h' & -> & Hsub).
  by apply (lookup_weaken h).
Qed.

End Windowing_facts.

(** C2, as stated: some array of [T] observations and
    some window length with [W - 1 >= T] give an output that holds data from
    the future.  No such input exists, for any type of elements. *)
Lemma C2_future_leak_refuted :
  ¬ ∃ (F : Type) (SF : Scalar F) (h : store F) (x : loc) (states : array F)
      (W : Z) (out : list (array F)) (h' : store F),
      h !! x = Some states
      ∧ (Z.of_nat (length states) ≤ W - 1)%Z
      ∧ state_windowing x W h = (inr out, h')
      ∧ leaks_future out W.
Proof.
  intros (F & SF & h & x & states & W & out & h' & Hx & _ & Hrun & Hleak).
  apply (state_windowing_inr _ _ _ _ _ _ Hx) in Hrun. subst out.
  destruct Hleak as (t & j & entry & r & Ht & Hj & Hlag & Hnz).
  destruct (windows_slice _ _ _ _ _ _ Ht Hj) as (_ & Hjn & ->).
  apply Hnz, pad_rows_zero. lia.
Qed.

(** ** More on the advantage estimator *)

Section GAE_more.
Context {F : Type} {SF : Scalar F} {St : Type}.
Implicit Types (critic : @critic_t F St) (delta reward value : list F).
Implicit Types (gamma lamb r : F) (log : @call_log St).

Hypothesis fadd_comm : ∀ x y : F, fadd x y = fadd y x.
Hypothesis fmul_comm : ∀ x y : F, fmul x y = fmul y x.
Hypothesis fmul_assoc : ∀ x y z : F, fmul (fmul x y) z = fmul x (fmul y z).
Hypothesis fmul_add_distr_l :
  ∀ x y z : F, fmul x (fadd y z) = fadd (fmul x y) (fmul x z).
Hypothesis fadd_0_l : ∀ x : F, fadd f0 x = x.
Hypothesis fadd_0_r : ∀ x : F, fadd x f0 = x.
Hypothesis fmul_0_l : ∀ x : F, fmul f0 x = f0.
Hypothesis fmul_0_r : ∀ x : F, fmul x f0 = f0.
Hypothesis fmul_1_r : ∀ x : F, fmul x f1 = x.

(** The estimator on residuals [delta] that numpy did compute, one per
    reward. *)
Lemma GAE_run_delta critic (states : list St) reward gamma lamb log
    (rg delta : list F) :
  length states = length reward + 1 →
  np_binop fadd reward (map (fmul gamma) (np_tail (critic states))) = inr rg →
  np_binop fsub rg (np_init (critic states)) = inr delta →
  length delta = length reward →
  GeneralizedAdvantageEstimator critic states reward gamma lamb log
  = (inr (backward (fmul gamma lamb) delta), log ++ [states]).
Proof using Type.
  intros Hs Hrg Hdelta Hd. unfold GeneralizedAdvantageEstimator, py_assert.
  rewrite bool_decide_true by lia.
  unfold mbind, M_bind, lift, predict_on_batch. simpl.
  rewrite Hrg, Hdelta.
  replace (Z.of_nat (length states) - 1)%Z with (Z.of_nat (length delta))
    by lia.
  unfold py_range. rewrite Nat2Z.id.
  pose proof (loop_backward delta (fmul gamma lamb) (length delta) 0
                ltac:(lia)) as Hloop.
  rewrite Nat.sub_0_r, drop_all in Hloop. simpl in Hloop.
  rewrite reverse_nil in Hloop. rewrite Hloop. unfold py_slice_rev_to0. simpl.
  by rewrite drop_0, reverse_involutive.
Qed.

Lemma foldr_scale r (h : nat → F) (l : list nat) :
  foldr fadd f0 (map (λ k, fmul r (h k)) l)
  = fmul r (foldr fadd f0 (map h l)).
Proof using fmul_add_distr_l fmul_0_r.
  induction l as [|k l IH]; simpl; [by rewrite fmul_0_r|].
  by rewrite IH, fmul_add_distr_l.
Qed.

(** The recurrence unrolled: every advantage is the sum of the later
    residuals, each weighted by a power of [r]. *)
Lemma backward_discounted r delta : ∀ i,
  nth i (backward r delta) f0
  = foldr fadd f0 (map (λ k, fmul (fpow r k) (nth (i + k) delta f0))
                       (seq 0 (length delta - i))).
Proof using fadd_comm fmul_comm fmul_assoc fmul_add_distr_l fmul_0_r fmul_1_r.
  induction delta as [|d ds IH]; intros i.
  - by destruct i.
  - destruct i as [|i]; [|apply IH].
    change (nth 0 (backward r (d :: ds)) f0)
      with (fadd (fmul (hd f0 (backward r ds)) r) d).
    rewrite hd_nth_0, IH. simpl length. rewrite !Nat.sub_0_r.
    rewrite <- cons_seq, <- fmap_S_seq. simpl.
    rewrite <- list_fmap_compose.
    rewrite (list_fmap_ext (_ ∘ S)
               (λ k, fmul r (fmul (fpow r k) (nth k ds f0))))
      by (intros ? k _; simpl; apply fmul_assoc).
    rewrite foldr_scale.
    by rewrite fadd_comm, (fmul_comm f1), fmul_1_r, (fmul_comm r).
Qed.

Lemma backward_drop r delta : ∀ i,
  backward r (drop i delta) = drop i (backward r delta).
Proof using Type.
  induction delta as [|d ds IH]; intros [|i]; simpl; auto.
Qed.

Lemma nth_drop (l : list F) (i j : nat) :
  nth j (drop i l) f0 = nth (i + j) l f0.
Proof using Type. by rewrite !nth_lookup, lookup_drop. Qed.

(** X1.  With one value per state, every advantage is the discounted sum
    of the residuals from its step on:
    [A[i] = sum_k (gamma*lamb)**k * delta[i+k]], [k] from [0] to [n-1-i]. *)
Theorem X1_gae_discounted_sum critic (states : list St) reward gamma lamb log :
  length states = length reward + 1 →
  length (critic states) = length states →
  ∃ A : list F,
    GeneralizedAdvantageEstimator critic states reward gamma lamb log
    = (inr A, log ++ [states])
    ∧ ∀ i, i < length reward →
        nth i A f0
        = discounted_sum (fmul gamma lamb)
            (td_residual reward (critic states) gamma) i (length reward).
Proof using fadd_comm fmul_comm fmul_assoc fmul_add_distr_l fmul_0_r fmul_1_r.
  intros Hs Hv. eexists. split; [by apply GAE_run|].
  intros i Hi. rewrite backward_discounted, length_map, length_seq.
  unfold discounted_sum. f_equal. apply list_fmap_ext. intros j k Hk.
  apply lookup_seq in Hk as [-> Hj]. simpl. f_equal.
  apply nth_lookup_Some.
  by rewrite list_lookup_fmap, lookup_seq_lt by lia.
Qed.

(** X2.  The evaluator is called once, on the whole batch of states, when
    the shape assertion passes, also when the arithmetic raises afterwards,
    and not at all when the assertion fails. *)
Theorem X2_gae_evaluator_calls critic (states : list St) reward gamma lamb log :
  (GeneralizedAdvantageEstimator critic states reward gamma lamb log).2
  = if bool_decide (Z.of_nat (length reward)
                    = (Z.of_nat (length states) - 1)%Z)
    then log ++ [states] else log.
Proof using Type.
  case_bool_decide as Hpre.
  - destruct (GAE_assert_passes critic states reward gamma lamb log Hpre)
      as (o & -> & _). done.
  - by rewrite GAE_assert_fails.
Qed.

(** X3.  An evaluator that returns two values [v0, v1] for three or more
    states is not rejected: both are broadcast, and the estimator returns
    the recurrence over the residuals [reward[i] + gamma*v1 - v0]. *)
Theorem X3_gae_two_values_broadcast critic (states : list St) reward gamma lamb
    log (v0 v1 : F) :
  2 ≤ length reward →
  length states = length reward + 1 →
  critic states = [v0; v1] →
  GeneralizedAdvantageEstimator critic states reward gamma lamb log
  = (inr (backward (fmul gamma lamb)
            (map (λ x, fsub (fadd x (fmul gamma v1)) v0) reward)),
     log ++ [states]).
Proof using Type.
  intros Hn Hs Hv.
  apply (GAE_run_delta _ _ _ _ _ _
           (map (λ x, fadd x (fmul gamma v1)) reward)).
  - done.
  - rewrite Hv. unfold np_binop. simpl.
    rewrite bool_decide_false by lia.
    by destruct reward as [|x [|y reward]]; simpl in *; try lia.
  - rewrite Hv. unfold np_binop, np_init. simpl.
    rewrite bool_decide_false by (rewrite length_map; lia).
    destruct reward as [|x [|y reward]]; simpl in *; try lia.
    by rewrite <- !list_fmap_compose.
  - by rewrite length_map.
Qed.

(** X4.  For two or more rewards, an evaluator that returns neither one
    value per state nor exactly two values makes the estimator raise
    [ValueError], after the one evaluator call. *)
Theorem X4_gae_wrong_count_raises critic (states : list St) reward gamma lamb
    log :
  2 ≤ length reward →
  length states = length reward + 1 →
  length (critic states) ≠ length states →
  length (critic states) ≠ 2 →
  GeneralizedAdvantageEstimator critic states reward gamma lamb log
  = (raise ValueError, log ++ [states]).
Proof using Type.
  intros Hn Hs Hv Hv2. unfold GeneralizedAdvantageEstimator, py_assert.
  rewrite bool_decide_true by lia.
  unfold mbind, M_bind, lift, predict_on_batch. simpl.
  assert (Hgv : length (map (fmul gamma) (np_tail (critic states)))
                = length (critic states) - 1)
    by (unfold np_tail; by rewrite length_map, length_drop).
  set (gv := map (fmul gamma) (np_tail (critic states))) in *.
  unfold np_binop. rewrite bool_decide_false by lia.
  destruct reward as [|x [|y reward]]; simpl in *; try lia.
  destruct gv as [|a [|b gv]]; simpl in *; try done. lia.
Qed.

(** X5.  With [gamma = 0] the advantages are [reward[i] - value[i]]. *)
Theorem X5_gae_gamma_zero critic (states : list St) reward lamb log :
  length states = length reward + 1 →
  length (critic states) = length states →
  GeneralizedAdvantageEstimator critic states reward f0 lamb log
  = (inr (map (λ i, fsub (nth i reward f0) (nth i (critic states) f0))
              (seq 0 (length reward))),
     log ++ [states]).
Proof using fadd_0_l fadd_0_r fmul_0_l fmul_0_r.
  intros Hs Hv. rewrite GAE_run by done.
  rewrite fmul_0_l, (backward_zero fadd_0_l fmul_0_r).
  do 2 f_equal. apply list_fmap_ext. intros j i _.
  unfold td_residual. by rewrite fmul_0_l, fadd_0_r.
Qed.

(** X6.  The advantages do not depend on the past: for an evaluator that
    values each state on its own, the estimator on the trajectory from
    step [i] on returns the advantages of the whole trajectory from
    [i] on. *)
Theorem X6_gae_suffix (v : St → F) critic (states : list St) reward gamma lamb
    log log' (i : nat) :
  (∀ batch, critic batch = map v batch) →
  length states = length reward + 1 →
  i ≤ length reward →
  ∃ A : list F,
    GeneralizedAdvantageEstimator critic states reward gamma lamb log
    = (inr A, log ++ [states])
    ∧ GeneralizedAdvantageEstimator critic (drop i states) (drop i reward)
        gamma lamb log'
      = (inr (drop i A), log' ++ [drop i states]).
Proof using Type.
  intros Hc Hs Hi. eexists. split.
  { apply GAE_run; [done|]. by rewrite Hc, length_map. }
  rewrite GAE_run.
  2: { rewrite !length_drop. lia. }
  2: { by rewrite Hc, length_map. }
  do 2 f_equal. rewrite <- backward_drop. f_equal.
  rewrite <- fmap_drop, drop_seq, length_drop. simpl.
  replace (seq i (length reward - i))
    with (Nat.add i <$> seq 0 (length reward - i))
    by (rewrite fmap_add_seq; f_equal; lia).
  rewrite <- list_fmap_compose.
  apply list_fmap_ext. intros j k _. simpl.
  unfold td_residual. rewrite !Hc, fmap_drop, !nth_drop.
  by replace (i + (k + 1)) with (i + k + 1) by lia.
Qed.

End GAE_more.

(** ** More on the windowing routine *)

Lemma mapM_res_map {A B : Type} (f : A → res B) (g : A → B) (l : list A) :
  (∀ i x, l !! i = Some x → f x = inr (g x)) →
  mapM f l = inr (map g l).
Proof.
  induction l as [|x l IH]; intros Hfg; [done|].
  simpl. rewrite (Hfg 0 x eq_refl). simpl.
  rewrite IH; [done|]. intros i y Hy. by apply (Hfg (S i)).
Qed.

Section Windowing_more.
Context {F : Type} {SF : Scalar F}.
Implicit Types (a b : array F) (h : store F) (l x y : loc).
Implicit Types (s t i j d : nat) (W : Z).

Lemma nth_seq_id a : map (λ t, nth t a []) (seq 0 (length a)) = a.
Proof.
  apply list_eq. intros t. rewrite list_lookup_fmap.
  destruct (decide (t < length a)) as [Ht|Ht].
  - rewrite lookup_seq_lt by done. simpl.
    destruct (lookup_lt_is_Some_2 a t Ht) as [r Hr].
    by rewrite Hr, (nth_lookup_Some _ _ _ _ Hr).
  - rewrite lookup_seq_ge by lia. by rewrite lookup_ge_None_2 by lia.
Qed.

(** X7.  For every window length [W >= 1], the last slice of every entry
    is the observation of that step: [out[:, -1]] is the input again. *)
Theorem X7_last_slice_is_input h x (states : array F) d W :
  h !! x = Some states →
  rect d states →
  (1 ≤ W)%Z →
  ∃ (out : list (array F)) h',
    state_windowing x W h = (inr out, h')
    ∧ last_slices out = inr states.
Proof.
  intros Hx Ha HW.
  destruct (state_windowing_rect h x states d W Hx Ha HW) as (h' & Hrun & _).
  eexists _, h'. split; [done|].
  unfold last_slices, windows.
  destruct (Z.to_nat W) as [|n] eqn:HWn; [lia|].
  rewrite <- cons_seq, reverse_cons.
  rewrite <- (nth_seq_id states) at 2.
  rewrite (mapM_res_map _ (λ e, nth 0 (reverse e) [])).
  - rewrite <- list_fmap_compose. f_equal. apply list_fmap_ext.
    intros k t _. simpl. rewrite map_app, reverse_app. simpl.
    by rewrite pad_rows_0.
  - intros k e He. apply list_lookup_fmap_Some in He as (t & -> & _).
    rewrite map_app. simpl. rewrite py_index_last, reverse_app. simpl.
    done.
Qed.

(** X8.  The windows slide: slice [j] of entry [t + 1] is slice [j + 1] of
    entry [t]. *)
Theorem X8_windows_slide h x (states : array F) d W :
  h !! x = Some states →
  rect d states →
  (1 ≤ W)%Z →
  ∃ (out : list (array F)) h',
    state_windowing x W h = (inr out, h')
    ∧ ∀ t j e1 e2,
        out !! (t + 1) = Some e1 → out !! t = Some e2 →
        (Z.of_nat j + 1 < W)%Z →
        e1 !! j = e2 !! (j + 1).
Proof.
  intros Hx Ha HW.
  destruct (state_windowing_rect h x states d W Hx Ha HW) as (h' & Hrun & _).
  eexists _, h'. split; [done|].
  intros t j e1 e2 H1 H2 Hj.
  assert (Ht1 : t + 1 < length states).
  { apply lookup_lt_Some in H1. by rewrite length_windows in H1. }
  rewrite windows_lookup in H1 by done.
  rewrite windows_lookup in H2 by lia.
  injection H1 as <-. injection H2 as <-.
  rewrite !list_lookup_fmap, !reverse_range_lookup by lia. simpl. f_equal.
  rewrite !(pad_slice d) by (done || lia).
  repeat case_decide; try lia; [|done].
  f_equal. lia.
Qed.

(** X9.  [naive_pad] returns a reference that was not in the store, so
    never its argument, and leaves the arrays of the store as they were;
    with shift [0] the new array is a copy of the argument. *)
Theorem X9_naive_pad_fresh h x (a : array F) s :
  h !! x = Some a →
  ∃ (y : loc) (b : array F),
    naive_pad x s h = (inr y, <[y := b]> h)
    ∧ h !! y = None
    ∧ y ≠ x
    ∧ length b = length a
    ∧ (s = 0 → b = a).
Proof.
  intros Hx. exists (fresh (dom h)), (pad_rows a s).
  split; [by apply naive_pad_run|].
  split; [apply fresh_lookup|].
  split; [intros Heq; pose proof (fresh_lookup h) as Hf; congruence|].
  split; [apply length_pad_rows|].
  intros ->. apply pad_rows_0.
Qed.

(** X10.  A window length of zero or less raises [ValueError], whatever the
    store holds at the reference, and allocates nothing. *)
Theorem X10_no_window_raises h x W :
  (W ≤ 0)%Z →
  state_windowing x W h = (raise ValueError, h).
Proof.
  intros HW. unfold state_windowing. by rewrite reverse_range_nil.
Qed.

End Windowing_more.

(** ** Soft target updates *)

Lemma py_sum_lists_concat {A : Type} (lists : list (list A)) :
  py_sum_lists lists = concat lists.
Proof.
  unfold py_sum_lists.
  assert (Hgen : ∀ acc : list A,
            foldl (λ acc l, acc ++ l) acc lists = acc ++ concat lists).
  { induction lists as [|l lists IH]; intros acc; simpl.
    - by rewrite app_nil_r.
    - by rewrite IH, app_assoc. }
  apply Hgen.
Qed.

Lemma append_loop_map {A B : Type} (g : A → B) (ps : list A) : ∀ acc : list B,
  foldl (λ updates p, updates ++ [g p]) acc ps = acc ++ map g ps.
Proof.
  induction ps as [|p ps IH]; intros acc; simpl.
  - by rewrite app_nil_r.
  - by rewrite IH, <- app_assoc.
Qed.

Section Soft_updates_facts.
Context {F W : Type} {SF : Scalar F} {TW : Tensor F W}.
Implicit Types (target source : model W) (tau : F).

Hypothesis fsub_0_r : fsub f1 f0 = f1.
Hypothesis fsub_diag : fsub f1 f1 = f0.
Hypothesis fadd_fsub : ∀ a : F, fadd a (fsub f1 a) = f1.
Hypothesis tscale_1 : ∀ w : W, tscale f1 w = w.
Hypothesis tadd_0_l : ∀ w w' : W, tadd (tscale f0 w') w = w.
Hypothesis tadd_0_r : ∀ w w' : W, tadd w (tscale f0 w') = w.
Hypothesis tscale_add : ∀ (a b : F) (w : W),
  tadd (tscale a w) (tscale b w) = tscale (fadd a b) w.

(** The loop builds one pair per position of the two lists of weights. *)
Lemma soft_updates_run target source tau :
  length (model_weights target) = length (model_weights source) →
  get_soft_target_model_updates target source tau
  = inr (map (λ p, (p.1, tadd (tscale tau p.2) (tscale (fsub f1 tau) p.1)))
             (zip (model_weights target) (model_weights source))).
Proof using Type.
  intros Hlen. unfold get_soft_target_model_updates.
  rewrite bool_decide_true by done. by rewrite append_loop_map.
Qed.

(** X11.  The function raises the assertion error exactly when the two
    models differ in their number of weights; otherwise it returns one
    update per weight of the target, the updated variables being the
    trainable weights of the target followed by the non-trainable weights
    of its layers, layer by layer. *)
Theorem X11_soft_updates_targets target source tau :
  (get_soft_target_model_updates target source tau = raise AssertionError
   ↔ length (model_weights target) ≠ length (model_weights source))
  ∧ ∀ updates,
      get_soft_target_model_updates target source tau = inr updates →
      map fst updates
      = trainable_weights target
        ++ concat (map non_trainable_weights (layers target)).
Proof using Type.
  split.
  - unfold get_soft_target_model_updates. by case_bool_decide.
  - intros updates Hrun.
    destruct (decide (length (model_weights target)
                      = length (model_weights source))) as [Hlen|Hlen].
    + rewrite soft_updates_run in Hrun by done. injection Hrun as <-.
      rewrite <- list_fmap_compose.
      rewrite (list_fmap_ext _ fst (zip _ _)) by (by intros i [tw sw] _).
      rewrite fst_zip by lia.
      unfold model_weights. by rewrite py_sum_lists_concat.
    + unfold get_soft_target_model_updates in Hrun.
      by rewrite bool_decide_false in Hrun.
Qed.

(** X12.  With [tau = 0] every update keeps the weight of the target. *)
Theorem X12_soft_updates_tau_zero target source updates :
  get_soft_target_model_updates target source f0 = inr updates →
  Forall (λ p, p.2 = p.1) updates.
Proof using fsub_0_r tscale_1 tadd_0_l.
  intros Hrun.
  destruct (decide (length (model_weights target)
                    = length (model_weights source))) as [Hlen|Hlen].
  - rewrite soft_updates_run in Hrun by done. injection Hrun as <-.
    apply Forall_fmap, Forall_true. intros [tw sw]. simpl.
    by rewrite fsub_0_r, tscale_1, tadd_0_l.
  - unfold get_soft_target_model_updates in Hrun.
    by rewrite bool_decide_false in Hrun.
Qed.

(** X13.  With [tau = 1] the new values are the weights of the source, in
    order. *)
Theorem X13_soft_updates_tau_one target source updates :
  get_soft_target_model_updates target source f1 = inr updates →
  map snd updates = model_weights source.
Proof using fsub_diag tscale_1 tadd_0_r.
  intros Hrun.
  destruct (decide (length (model_weights target)
                    = length (model_weights source))) as [Hlen|Hlen].
  - rewrite soft_updates_run in Hrun by done. injection Hrun as <-.
    rewrite <- list_fmap_compose.
    rewrite (list_fmap_ext _ snd (zip _ _)).
    + apply snd_zip. lia.
    + intros i [tw sw] _. simpl.
      by rewrite fsub_diag, tscale_1, tadd_0_r.
  - unfold get_soft_target_model_updates in Hrun.
    by rewrite bool_decide_false in Hrun.
Qed.

(** X14.  A target that holds the weights of the source already stays
    where it is, whatever [tau]. *)
Theorem X14_soft_updates_fixed_point target source tau updates :
  model_weights source = model_weights target →
  get_soft_target_model_updates target source tau = inr updates →
  Forall (λ p, p.2 = p.1) updates.
Proof using fadd_fsub tscale_1 tscale_add.
  intros Hsame Hrun.
  rewrite soft_updates_run in Hrun by by rewrite Hsame.
  injection Hrun as <-. rewrite Hsame.
  apply Forall_fmap, Forall_forall. intros [tw sw] Hin. simpl.
  assert (sw = tw) as ->.
  { apply list_elem_of_lookup in Hin as [i Hi].
    apply lookup_zip_with_Some in Hi as (u & u' & [= -> ->] & Hu & Hu').
    congruence. }
  by rewrite tscale_add, fadd_fsub, tscale_1.
Qed.

End Soft_updates_facts.

(** ** The Huber loss *)

Lemma Qabs_square (x : Q) : (Qabs x * Qabs x == x * x)%Q.
Proof. rewrite <- Qabs_Qmult. apply Qabs_pos. nra. Qed.

Lemma float_gt0_Fin (c : Q) : float_gt0 (Fin c) = true ↔ (0 < c)%Q.
Proof.
  simpl. rewrite negb_true_iff. split.
  - intros Hc. apply Qnot_le_lt. intros Hle.
    apply Qle_bool_iff in Hle. congruence.
  - intros Hc. destruct (Qle_bool c 0) eqn:Hle; [|done].
    apply Qle_bool_iff in Hle. lra.
Qed.

Lemma huber_elem_cases (c x : Q) :
  ((Qabs x < c)%Q ∧ huber_elem c x = ((1 # 2) * (x * x))%Q)
  ∨ ((c <= Qabs x)%Q ∧ huber_elem c x = (c * (Qabs x - (1 # 2) * c))%Q).
Proof.
  unfold huber_elem. destruct (Qle_bool c (Qabs x)) eqn:Hc; simpl.
  - right. split; [by apply Qle_bool_iff|done].
  - left. split; [|done]. apply Qnot_le_lt. intros Hle.
    apply Qle_bool_iff in Hle. congruence.
Qed.


Lemma huber_elem_inside (c x : Q) :
  (0 < c)%Q → (Qabs x <= c)%Q → (huber_elem c x == (1 # 2) * (x * x))%Q.
Proof.
  intros Hc Hin. pose proof (Qabs_square x) as Hsq.
  destruct (huber_elem_cases c x) as [[Hlt ->]|[Hle ->]]; [reflexivity|].
  revert Hsq Hin Hle. generalize (Qabs x). intros a Hsq Hin Hle.
  assert (a == c)%Q by lra. nra.
Qed.

Lemma huber_elem_mono (c x y : Q) :
  (0 < c)%Q → (Qabs x <= Qabs y)%Q → (huber_elem c x <= huber_elem c y)%Q.
Proof.
  intros Hc Hxy.
  pose proof (Qabs_nonneg x) as Hax. pose proof (Qabs_square x) as Hsx.
  pose proof (Qabs_nonneg y) as Hay. pose proof (Qabs_square y) as Hsy.
  destruct (huber_elem_cases c x) as [[Hx ->]|[Hx ->]],
           (huber_elem_cases c y) as [[Hy ->]|[Hy ->]];
    revert Hxy Hax Hsx Hay Hsy Hx Hy;
    generalize (Qabs x) (Qabs y); intros a b Hxy Hax Hsx Hay Hsy Hx Hy; nra.
Qed.

Lemma huber_elem_sym (c x y : Q) :
  (huber_elem c (x - y) == huber_elem c (y - x))%Q.
Proof.
  pose proof (Qabs_Qminus x y) as Hab.
  destruct (huber_elem_cases c (x - y)) as [[Hx ->]|[Hx ->]],
           (huber_elem_cases c (y - x)) as [[Hy ->]|[Hy ->]].
  - ring.
  - rewrite Hab in Hx. exfalso. revert Hx Hy. generalize (Qabs (y - x)).
    intros a Hx Hy. lra.
  - rewrite Hab in Hx. exfalso. revert Hx Hy. generalize (Qabs (y - x)).
    intros a Hx Hy. lra.
  - rewrite Hab. reflexivity.
Qed.

Section Huber_facts.
Context {I : Type}.
Implicit Types (y_true y_pred : I → Q) (K_backend : string).
Implicit Types (clip_value : pyfloat) (c : Q).

(** With a known backend and a finite positive clip value the function
    returns, element by element, [huber_elem]. *)
Lemma huber_loss_run K_backend tf_has_select y_true y_pred c :
  known K_backend → (0 < c)%Q →
  huber_loss K_backend tf_has_select y_true y_pred (Fin c)
  = inr (λ i, huber_elem c (y_true i - y_pred i)).
Proof.
  intros Hb Hc. unfold huber_loss.
  rewrite (proj2 (float_gt0_Fin c) Hc). simpl.
  by destruct Hb as [-> | ->], tf_has_select.
Qed.

(** X15.  The function raises the assertion error exactly when the clip
    value is not greater than zero (zero, negative, minus infinity or no
    number), whatever the backend. *)
Theorem X15_huber_assertion K_backend tf_has_select y_true y_pred clip_value :
  huber_loss K_backend tf_has_select y_true y_pred clip_value
  = inl (Raised AssertionError)
  ↔ float_gt0 clip_value = false.
Proof.
  unfold huber_loss. destruct (float_gt0 clip_value); simpl; [|done].
  destruct (np_isinf clip_value); [done|].
  destruct (String.eqb K_backend "tensorflow");
    [by destruct tf_has_select|].
  by destruct (String.eqb K_backend "theano").
Qed.

(** X16.  The function raises [RuntimeError] exactly when the backend is
    neither of the two it knows and the clip value is finite and positive:
    with an infinite clip value an unknown backend goes unnoticed. *)
Theorem X16_huber_unknown_backend K_backend tf_has_select y_true y_pred
    clip_value :
  huber_loss K_backend tf_has_select y_true y_pred clip_value
  = inl (RuntimeError K_backend)
  ↔ ¬ known K_backend ∧ ∃ c, clip_value = Fin c ∧ (0 < c)%Q.
Proof.
  unfold known, huber_loss.
  destruct (float_gt0 clip_value) eqn:Hgt; simpl.
  2: { split; [done|]. intros (_ & c & -> & Hc).
       apply float_gt0_Fin in Hc. congruence. }
  destruct clip_value as [c| | |]; simpl in *; try done.
  2: { split; [done|]. by intros (_ & c & ? & _). }
  destruct (String.eqb_spec K_backend "tensorflow") as [->|Htf].
  { split; [by destruct tf_has_select|]. intros [Hk _]. destruct Hk. by left. }
  destruct (String.eqb_spec K_backend "theano") as [->|Hth].
  { split; [done|]. intros [Hk _]. destruct Hk. by right. }
  split; [|done]. intros _. split; [by intros [?|?]|].
  exists c. split; [done|]. by apply float_gt0_Fin.
Qed.


(** X18.  Where the absolute error is at most the clip value, the boundary
    included, the loss is half the squared error: the two branches meet at
    the clip value. *)
Theorem X18_huber_inside_clip K_backend tf_has_select y_true y_pred c :
  known K_backend → (0 < c)%Q →
  ∃ loss : I → Q,
    huber_loss K_backend tf_has_select y_true y_pred (Fin c) = inr loss
    ∧ ∀ i, (Qabs (y_true i - y_pred i) <= c)%Q →
           (loss i == (1 # 2) * ((y_true i - y_pred i)
                                 * (y_true i - y_pred i)))%Q.
Proof.
  intros Hb Hc. eexists. split; [by apply huber_loss_run|].
  intros i. by apply huber_elem_inside.
Qed.

(** X19.  The loss does not change when the two tensors are exchanged:
    the same exception, or results equal at every element. *)
Theorem X19_huber_symmetric K_backend tf_has_select y_true y_pred clip_value :
  match huber_loss K_backend tf_has_select y_true y_pred clip_value,
        huber_loss K_backend tf_has_select y_pred y_true clip_value with
  | inr loss, inr loss' => ∀ i, (loss i == loss' i)%Q
  | inl e, inl e' => e = e'
  | _, _ => False
  end.
Proof.
  unfold huber_loss. destruct (float_gt0 clip_value); simpl; [|done].
  destruct (np_isinf clip_value).
  { intros i. unfold K_square. ring. }
  assert (Hsym : ∀ i,
    (select (λ i, negb (Qle_bool (float_val clip_value)
                                 (K_abs (λ i, y_true i - y_pred i) i)))
       (λ i, (1 # 2) * K_square (λ i, y_true i - y_pred i) i)
       (λ i, float_val clip_value
             * (K_abs (λ i, y_true i - y_pred i) i
                - (1 # 2) * float_val clip_value)) i
     == select (λ i, negb (Qle_bool (float_val clip_value)
                                    (K_abs (λ i, y_pred i - y_true i) i)))
          (λ i, (1 # 2) * K_square (λ i, y_pred i - y_true i) i)
          (λ i, float_val clip_value
                * (K_abs (λ i, y_pred i - y_true i) i
                   - (1 # 2) * float_val clip_value)) i)%Q).
  { intros i.
    apply (huber_elem_sym (float_val clip_value) (y_true i) (y_pred i)). }
  destruct (String.eqb K_backend "tensorflow");
    [by destruct tf_has_select|].
  by destruct (String.eqb K_backend "theano").
Qed.

(** X20.  With a known backend and a finite positive clip value, the loss
    grows with the absolute error: a larger absolute error never has a
    smaller loss. *)
Theorem X20_huber_monotone K_backend tf_has_select y_true y_pred c :
  known K_backend → (0 < c)%Q →
  ∃ loss : I → Q,
    huber_loss K_backend tf_has_select y_true y_pred (Fin c) = inr loss
    ∧ ∀ i j, (Qabs (y_true i - y_pred i) <= Qabs (y_true j - y_pred j))%Q →
             (loss i <= loss j)%Q.
Proof.
  intros Hb Hc. eexists. split; [by apply huber_loss_run|].
  intros i j. by apply huber_elem_mono.
Qed.

End Huber_facts.

(** ** Cloning *)

Section Clone_facts.
Context {Model Cfg Weights Custom : Type}.
Variable class_name_of : Model → string.
Variable get_config : Model → Cfg.
Variable get_weights : Model → Weights.
Variable model_from_config : model_config Cfg → Custom → res Model.
Variable set_weights : Model → Weights → res Model.

(** X21.  With no class name, configuration or weights given,
    [clone_model_customize] is [clone_model]; and a failure of
    [model_from_config] is the outcome of both, before any weight is set. *)
Theorem X21_clone_customize_defaults (m : Model) (custom_objects : Custom) :
  clone_model_customize class_name_of get_config get_weights
    model_from_config set_weights m None None None custom_objects
  = clone_model class_name_of get_config get_weights
      model_from_config set_weights m custom_objects
  ∧ ∀ e class_name config weights,
      model_from_config
        {| cfg_class_name := default (class_name_of m) class_name;
           cfg_config := default (get_config m) config |} custom_objects
      = raise e →
      clone_model_customize class_name_of get_config get_weights
        model_from_config set_weights m class_name config weights
        custom_objects
      = raise e.
Proof.
  split; [done|]. intros e class_name config weights Hfail.
  unfold clone_model_customize.
  destruct class_name, config; simpl in *; by rewrite Hfail.
Qed.

End Clone_facts.

(** ** The optimizer with additional updates *)

Section Additional_updates_facts.
Context {U : Type}.
Implicit Types (h : list_store U) (r a : loc) (us adds : list U).
Implicit Types (su : option loc).

(** One call, given what the inner optimizer returns. *)
Lemma get_updates_run (inner : M (list_store U) loc) h h1 r a us adds su :
  inner h = (inr r, h1) →
  h1 !! r = Some us →
  h1 !! a = Some adds →
  get_updates inner a (h, su) = (inr r, (<[r := us ++ adds]> h1, Some r)).
Proof.
  intros Hinner Hr Ha.
  unfold get_updates. rewrite M_bind_run.
  unfold in_store at 1. simpl. rewrite Hinner.
  rewrite M_bind_run. unfold in_store, list_iadd. simpl.
  by rewrite Hr, Ha.
Qed.

(** X22.  [get_updates] returns the very list the inner optimizer returned,
    extended in place by the additional updates, and keeps it in
    [self.updates]; the list of additional updates is unchanged unless the
    inner optimizer returned that same list. *)
Theorem X22_get_updates_extends (inner : M (list_store U) loc)
    h h1 r a us adds su :
  inner h = (inr r, h1) →
  h1 !! r = Some us →
  h1 !! a = Some adds →
  get_updates inner a (h, su)
  = (inr r, (<[r := us ++ adds]> h1, Some r))
  ∧ (r ≠ a → (<[r := us ++ adds]> h1) !! a = Some adds).
Proof.
  intros Hinner Hr Ha. split; [by apply get_updates_run|].
  intros Hne. by rewrite lookup_insert_ne.
Qed.

(** X23.  When the inner optimizer hands out the list it keeps, a second
    call appends the additional updates a second time. *)
Theorem X23_get_updates_accumulates h r a us adds su :
  h !! r = Some us →
  h !! a = Some adds →
  r ≠ a →
  (get_updates (inner_kept_list r) a
   ≫= λ _, get_updates (inner_kept_list r) a) (h, su)
  = (inr r, (<[r := us ++ adds ++ adds]> h, Some r)).
Proof.
  intros Hr Ha Hne. rewrite M_bind_run.
  rewrite (get_updates_run (inner_kept_list r) h h r a us adds su
             eq_refl Hr Ha).
  rewrite (get_updates_run (inner_kept_list r)
             (<[r := us ++ adds]> h) (<[r := us ++ adds]> h) r a
             (us ++ adds) adds (Some r) eq_refl).
  - by rewrite insert_insert_eq, <- app_assoc.
  - apply lookup_insert_eq.
  - by rewrite lookup_insert_ne.
Qed.

(** X24.  When the inner optimizer builds a new list on every call, every
    call returns a new list: the inner updates followed by the additional
    updates, once; the lists of the store before the call are unchanged. *)
Theorem X24_get_updates_new_list h a us adds su :
  h !! a = Some adds →
  ∃ r, get_updates (inner_new_list us) a (h, su)
       = (inr r, (<[r := us ++ adds]> h, Some r))
       ∧ h !! r = None.
Proof.
  intros Ha. exists (fresh (dom h)).
  assert (Hf : h !! fresh (dom h) = None) by apply not_elem_of_dom, is_fresh.
  split; [|done].
  rewrite (get_updates_run (inner_new_list us) h
             (<[fresh (dom h) := us]> h) (fresh (dom h)) a us adds su
             eq_refl).
  - by rewrite insert_insert_eq.
  - apply lookup_insert_eq.
  - rewrite lookup_insert_ne; [done|]. congruence.
Qed.

End Additional_updates_facts.

(** ** The shape assertion of the estimator *)

Section GAE_shape_facts.
Context {F : Type} {SF : Scalar F} {St : Type}.
Implicit Types (critic : @critic_t F St) (reward : ndarray F).
Implicit Types (gamma lamb : F) (log : @call_log St).

Lemma GAE_shaped_fails critic (states : list St) reward gamma lamb log :
  map Z.of_nat (nd_shape reward) ≠ [(Z.of_nat (length states) - 1)%Z] →
  GeneralizedAdvantageEstimator_shaped critic states reward gamma lamb log
  = (raise AssertionError, log).
Proof.
  intros Hne. unfold GeneralizedAdvantageEstimator_shaped, py_assert.
  by rewrite bool_decide_false.
Qed.

(** A reward of shape [(n,)] has [n] elements, and the estimator runs on
    them as on a list. *)
Lemma GAE_shaped_passes critic (states : list St) reward gamma lamb log :
  map Z.of_nat (nd_shape reward) = [(Z.of_nat (length states) - 1)%Z] →
  Z.of_nat (length (nd_data reward)) = (Z.of_nat (length states) - 1)%Z
  ∧ GeneralizedAdvantageEstimator_shaped critic states reward gamma lamb log
    = GeneralizedAdvantageEstimator critic states (nd_data reward)
        gamma lamb log.
Proof.
  intros Hshape.
  assert (Hlen : Z.of_nat (length (nd_data reward))
                 = (Z.of_nat (length states) - 1)%Z).
  { rewrite (nd_wf reward).
    destruct (nd_shape reward) as [|k [|k' shape]]; simpl in *; try done.
    injection Hshape as <-. f_equal. lia. }
  split; [done|].
  unfold GeneralizedAdvantageEstimator_shaped, GeneralizedAdvantageEstimator.
  by rewrite !bool_decide_true.
Qed.

(** C4.  The estimator raises the assertion error exactly when the shape
    of [reward] is not [(len(states) - 1,)]; it then has called no
    evaluator (the log is unchanged) and has no result.  For a
    one-dimensional [reward] of [k] elements that is: exactly when [k] is
    not the length of the states minus 1. *)
Theorem C4_gae_shape_precondition critic (states : list St) reward gamma lamb
    log :
  ((GeneralizedAdvantageEstimator_shaped critic states reward gamma lamb log).1
     = raise AssertionError
   ↔ map Z.of_nat (nd_shape reward) ≠ [(Z.of_nat (length states) - 1)%Z])
  ∧ (map Z.of_nat (nd_shape reward) ≠ [(Z.of_nat (length states) - 1)%Z] →
     GeneralizedAdvantageEstimator_shaped critic states reward gamma lamb log
     = (raise AssertionError, log))
  ∧ ∀ k : nat, nd_shape reward = [k] →
      ((GeneralizedAdvantageEstimator_shaped critic states reward gamma lamb
          log).1 = raise AssertionError
       ↔ Z.of_nat k ≠ (Z.of_nat (length states) - 1)%Z).
Proof.
  assert (Hiff :
    (GeneralizedAdvantageEstimator_shaped critic states reward gamma lamb log).1
      = raise AssertionError
    ↔ map Z.of_nat (nd_shape reward) ≠ [(Z.of_nat (length states) - 1)%Z]).
  { split.
    - intros Hraise Hshape.
      destruct (GAE_shaped_passes critic states reward gamma lamb log Hshape)
        as [Hlen Hrun].
      rewrite Hrun in Hraise.
      destruct (GAE_assert_passes critic states (nd_data reward) gamma lamb
                  log Hlen) as (o & Ho & Hne & _).
      rewrite Ho in Hraise. by apply Hne.
    - intros Hne. by rewrite GAE_shaped_fails. }
  split; [done|]. split; [apply GAE_shaped_fails|].
  intros k Hk. rewrite Hiff, Hk. simpl. split.
  - intros Hne Heq. apply Hne. by rewrite Heq.
  - intros Hne [= Heq]. by apply Hne.
Qed.

End GAE_shape_facts.

(** C4, as stated: the assertion error exactly when [len(reward)] is not
    [len(states) - 1].  A reward of shape [(2, 1)] has length [2], the three
    states ask for [2], and the estimator raises all the same. *)
Lemma C4_column_reward_raises :
  nd_len reward_Z_column = Some 2
  ∧ ¬ ((GeneralizedAdvantageEstimator_shaped critic_Z [5; 7; 4]
          reward_Z_column 3%Z 2%Z []).1 = raise AssertionError
       ↔ Z.of_nat 2 ≠ (Z.of_nat (length [5; 7; 4]) - 1)%Z).
Proof.
  split; [reflexivity|]. intros [Hraise _].
  by apply (Hraise eq_refl).
Qed.

(** ** Instances on integers *)

(** More runs of the two routines, and every claim at a concrete input. *)

Example gae_Z_lamb_zero :
  GeneralizedAdvantageEstimator critic_Z [5; 7; 4] [1; 2]%Z 3%Z 0%Z []
  = (inr [17; 7]%Z, [[5; 7; 4]]).
Proof. reflexivity. Qed.

Example gae_Z_cumulative :
  GeneralizedAdvantageEstimator critic_Z [5; 7; 4] [1; 2]%Z 1%Z 1%Z []
  = (inr [2; -1]%Z, [[5; 7; 4]]).
Proof. reflexivity. Qed.

Example gae_Z_no_rewards :
  GeneralizedAdvantageEstimator critic_Z [5] [] 3%Z 2%Z [] = (inr [], [[5]]).
Proof. reflexivity. Qed.

Example gae_Z_short_evaluator :
  GeneralizedAdvantageEstimator (λ _ : list nat, [1; 2; 3; 4]%Z)
    [5; 7; 4] [1; 2]%Z 3%Z 2%Z []
  = (raise ValueError, [[5; 7; 4]]).
Proof. reflexivity. Qed.

Example windowing_Z_long_window :
  (state_windowing (F := Z) 0 4 {[ 0 := [[1]; [2]]%Z ]}).1
  = inr [[[0]; [0]; [0]; [1]]; [[0]; [0]; [1]; [2]]]%Z.
Proof. vm_compute. reflexivity. Qed.

Example windowing_Z_five :
  (state_windowing (F := Z) 0 3
     {[ 0 := [[1]; [2]; [3]; [4]; [5]]%Z ]}).1
  = inr [[[0]; [0]; [1]]; [[0]; [1]; [2]]; [[1]; [2]; [3]];
         [[2]; [3]; [4]]; [[3]; [4]; [5]]]%Z.
Proof. vm_compute. reflexivity. Qed.

Example windowing_Z_no_window :
  state_windowing (F := Z) 0 0 {[ 0 := [[1]; [2]]%Z ]}
  = (raise ValueError, {[ 0 := [[1]; [2]]%Z ]}).
Proof. vm_compute. reflexivity. Qed.

Lemma C1_gae_recurrence_witness :
  ∃ A : list Z,
    GeneralizedAdvantageEstimator critic_Z [5; 7; 4] [1; 2]%Z 3%Z 2%Z []
    = (inr A, [] ++ [[5; 7; 4]])
    ∧ length A = 2
    ∧ nth (2 - 1) A f0 = td_residual [1; 2]%Z (critic_Z [5; 7; 4]) 3%Z (2 - 1)
    ∧ ∀ i, i + 1 < 2 →
        nth i A f0
        = fadd (td_residual [1; 2]%Z (critic_Z [5; 7; 4]) 3%Z i)
               (fmul (fmul 3%Z 2%Z) (nth (i + 1) A f0)).
Proof.
  apply (C1_gae_recurrence (F := Z) (SF := Z_Scalar) Z.add_comm Z.mul_comm Z.add_0_l Z.mul_0_l
           critic_Z [5; 7; 4] [1; 2]%Z 3%Z 2%Z [] 2);
    [lia | reflexivity | reflexivity | reflexivity].
Defined.

Example gae_Z_column_reward :
  GeneralizedAdvantageEstimator_shaped critic_Z [5; 7; 4] reward_Z_column
    3%Z 2%Z []
  = (raise AssertionError, []).
Proof. reflexivity. Qed.

Example gae_Z_flat_reward :
  GeneralizedAdvantageEstimator_shaped critic_Z [5; 7; 4]
    {| nd_shape := [2]; nd_data := [1; 2]%Z; nd_wf := eq_refl |} 3%Z 2%Z []
  = GeneralizedAdvantageEstimator critic_Z [5; 7; 4] [1; 2]%Z 3%Z 2%Z [].
Proof. reflexivity. Qed.

Lemma C4_gae_shape_precondition_witness :
  map Z.of_nat (nd_shape reward_Z_column)
  ≠ [(Z.of_nat (length [5; 7; 4]) - 1)%Z]
  ∧ GeneralizedAdvantageEstimator_shaped critic_Z [5; 7; 4] reward_Z_column
      3%Z 2%Z []
    = (raise AssertionError, []).
Proof.
  assert (Hne : map Z.of_nat (nd_shape reward_Z_column)
                ≠ [(Z.of_nat (length [5; 7; 4]) - 1)%Z]) by discriminate.
  split; [exact Hne|].
  exact (proj1 (proj2 (C4_gae_shape_precondition critic_Z [5; 7; 4]
                         reward_Z_column 3%Z 2%Z [])) Hne).
Defined.

Lemma C5_gae_lamb_zero_witness :
  GeneralizedAdvantageEstimator critic_Z [5; 7; 4] [1; 2]%Z 3%Z f0 []
  = (inr (map (td_residual [1; 2]%Z (critic_Z [5; 7; 4]) 3%Z) (seq 0 2)),
     [] ++ [[5; 7; 4]]).
Proof.
  apply (C5_gae_lamb_zero (F := Z) (SF := Z_Scalar) Z.add_0_l Z.mul_0_r
           critic_Z [5; 7; 4] [1; 2]%Z 3%Z [] 2);
    [lia | reflexivity | reflexivity | reflexivity].
Defined.

Lemma C6_gae_cumulative_sum_witness :
  ∃ A : list Z,
    GeneralizedAdvantageEstimator critic_Z [5; 7; 4] [1; 2]%Z f1 f1 []
    = (inr A, [] ++ [[5; 7; 4]])
    ∧ length A = length [1; 2]%Z
    ∧ ∀ i, i < length [1; 2]%Z →
        nth i A f0
        = sum_from_to (td_residual [1; 2]%Z (critic_Z [5; 7; 4]) f1) i
                      (length [1; 2]%Z).
Proof.
  apply (C6_gae_cumulative_sum (F := Z) (SF := Z_Scalar) Z.add_comm Z.mul_1_r
           critic_Z [5; 7; 4] [1; 2]%Z []); reflexivity.
Defined.

Lemma C7_gae_length_witness :
  (∀ A, (GeneralizedAdvantageEstimator critic_Z [5] [] 3%Z 2%Z []).1 = inr A →
        length A = length ([] : list Z))
  ∧ (length (critic_Z [5]) = length [5] →
     ∃ A, GeneralizedAdvantageEstimator critic_Z [5] [] 3%Z 2%Z []
          = (inr A, [] ++ [[5]])
          ∧ length A = length ([] : list Z)).
Proof.
  apply (C7_gae_length (F := Z) critic_Z [5] [] 3%Z 2%Z []). reflexivity.
Defined.

Lemma C2_no_future_leak_witness :
  ∃ (out : list (array Z)) h',
    state_windowing 0 4 store_Z_two = (inr out, h')
    ∧ length out = length [[1]; [2]]%Z
    ∧ ¬ leaks_future out 4
    ∧ ∀ t j entry r, out !! t = Some entry → entry !! j = Some r →
        r = lagged_slice [[1]; [2]]%Z 1 (Z.to_nat 4) t j.
Proof.
  apply (C2_no_future_leak store_Z_two 0 [[1]; [2]]%Z 1 4);
    [reflexivity | repeat constructor | simpl; lia].
Defined.

Lemma C3_windowing_slices_witness :
  ∃ (out : list (array Z)) h',
    state_windowing 0 (Z.of_nat 2) store_Z_two = (inr out, h')
    ∧ length out = length [[1]; [2]]%Z
    ∧ ∀ t, t < length [[1]; [2]]%Z →
        ∃ entry, out !! t = Some entry
                 ∧ length entry = 2
                 ∧ ∀ j, j < 2 →
                     entry !! j = Some (lagged_slice [[1]; [2]]%Z 1 2 t j).
Proof.
  apply (C3_windowing_slices store_Z_two 0 [[1]; [2]]%Z 1 2);
    [reflexivity | repeat constructor | simpl; lia | simpl; lia].
Defined.

Lemma C8_window_one_roundtrip_witness :
  ∃ (out : list (array Z)) h',
    state_windowing 0 1 store_Z_two = (inr out, h')
    ∧ out = map (λ r, [r]) [[1]; [2]]%Z
    ∧ last_slices out = inr [[1]; [2]]%Z.
Proof.
  apply (C8_window_one_roundtrip store_Z_two 0 [[1]; [2]]%Z);
    [reflexivity | discriminate].
Defined.

Lemma C9_long_lag_zero_witness :
  ((4 ≤ 0)%Z → ∃ h', state_windowing 0 4 store_Z_two = (raise ValueError, h'))
  ∧ ((1 ≤ 4)%Z →
     ∃ (out : list (array Z)) h',
       state_windowing 0 4 store_Z_two = (inr out, h')
       ∧ length out = length [[1]; [2]]%Z
       ∧ ∀ t j, t < length [[1]; [2]]%Z → (Z.of_nat j < 4)%Z →
           (Z.of_nat (length [[1]; [2]]%Z) ≤ 4 - 1 - Z.of_nat j)%Z →
           ∃ entry, out !! t = Some entry
                    ∧ entry !! j = Some (replicate 1 f0)).
Proof.
  apply (C9_long_lag_zero store_Z_two 0 [[1]; [2]]%Z 1 4);
    [reflexivity | repeat constructor | simpl; lia].
Defined.

Lemma C10_input_unchanged_witness :
  (state_windowing 0 4 store_Z_two).2 !! 0 = Some [[1]; [2]]%Z.
Proof.
  apply (C10_input_unchanged store_Z_two 0 [[1]; [2]]%Z 4). reflexivity.
Defined.

(** *** The further properties at concrete inputs *)

Example soft_updates_Z :
  get_soft_target_model_updates target_Z source_Z 2%Z
  = inr [(1, 7); (2, 8); (3, 9)]%Z.
Proof. reflexivity. Qed.

Example soft_updates_Z_mismatch :
  get_soft_target_model_updates target_Z
    {| trainable_weights := [4]%Z; layers := [] |} 2%Z
  = raise AssertionError.
Proof. reflexivity. Qed.

Example huber_Q_unknown_backend :
  huber_loss "cntk" true y_index y_zero (Fin 1) = inl (RuntimeError "cntk").
Proof. reflexivity. Qed.

Example huber_Q_values :
  ∃ loss, huber_loss "theano" false y_index y_zero (Fin 2) = inr loss
          ∧ (loss 1%nat == 1 # 2)%Q ∧ (loss 2%nat == 2)%Q
          ∧ (loss 3%nat == 4)%Q.
Proof. eexists. split; [reflexivity|]. by vm_compute. Qed.

Lemma X1_gae_discounted_sum_witness :
  ∃ A : list Z,
    GeneralizedAdvantageEstimator critic_Z [5; 7; 4] [1; 2]%Z 3%Z 2%Z []
    = (inr A, [] ++ [[5; 7; 4]])
    ∧ ∀ i, i < length [1; 2]%Z →
        nth i A f0
        = discounted_sum (fmul 3%Z 2%Z)
            (td_residual [1; 2]%Z (critic_Z [5; 7; 4]) 3%Z) i
            (length [1; 2]%Z).
Proof.
  apply (X1_gae_discounted_sum (F := Z) (SF := Z_Scalar)
           Z.add_comm Z.mul_comm (λ x y z, eq_sym (Z.mul_assoc x y z))
           Z.mul_add_distr_l Z.mul_0_r Z.mul_1_r
           critic_Z [5; 7; 4] [1; 2]%Z 3%Z 2%Z []); reflexivity.
Defined.

Lemma X3_gae_two_values_broadcast_witness :
  GeneralizedAdvantageEstimator (λ _ : list nat, [10; 20]%Z)
    [5; 7; 4] [1; 2]%Z 3%Z 2%Z []
  = (inr (backward (fmul 3%Z 2%Z)
            (map (λ x, fsub (fadd x (fmul 3%Z 20%Z)) 10%Z) [1; 2]%Z)),
     [] ++ [[5; 7; 4]]).
Proof.
  apply (X3_gae_two_values_broadcast (F := Z) (λ _ : list nat, [10; 20]%Z)
           [5; 7; 4] [1; 2]%Z 3%Z 2%Z [] 10%Z 20%Z);
    [simpl; lia | reflexivity | reflexivity].
Defined.

Lemma X4_gae_wrong_count_raises_witness :
  GeneralizedAdvantageEstimator (λ _ : list nat, [1; 2; 3; 4]%Z)
    [5; 7; 4] [1; 2]%Z 3%Z 2%Z []
  = (raise ValueError, [] ++ [[5; 7; 4]]).
Proof.
  apply (X4_gae_wrong_count_raises (F := Z) (λ _ : list nat, [1; 2; 3; 4]%Z)
           [5; 7; 4] [1; 2]%Z 3%Z 2%Z []);
    [simpl; lia | reflexivity | simpl; lia | simpl; lia].
Defined.

Lemma X5_gae_gamma_zero_witness :
  GeneralizedAdvantageEstimator critic_Z [5; 7; 4] [1; 2]%Z f0 2%Z []
  = (inr (map (λ i, fsub (nth i [1; 2]%Z f0) (nth i (critic_Z [5; 7; 4]) f0))
              (seq 0 (length [1; 2]%Z))),
     [] ++ [[5; 7; 4]]).
Proof.
  apply (X5_gae_gamma_zero (F := Z) (SF := Z_Scalar)
           Z.add_0_l Z.add_0_r Z.mul_0_l Z.mul_0_r
           critic_Z [5; 7; 4] [1; 2]%Z 2%Z []); reflexivity.
Defined.

Lemma X6_gae_suffix_witness :
  ∃ A : list Z,
    GeneralizedAdvantageEstimator critic_Z [5; 7; 4] [1; 2]%Z 3%Z 2%Z []
    = (inr A, [] ++ [[5; 7; 4]])
    ∧ GeneralizedAdvantageEstimator critic_Z (drop 1 [5; 7; 4])
        (drop 1 [1; 2]%Z) 3%Z 2%Z []
      = (inr (drop 1 A), [] ++ [drop 1 [5; 7; 4]]).
Proof.
  apply (X6_gae_suffix (F := Z) Z.of_nat critic_Z [5; 7; 4] [1; 2]%Z 3%Z 2%Z
           [] [] 1); [reflexivity | reflexivity | simpl; lia].
Defined.

Lemma X7_last_slice_is_input_witness :
  ∃ (out : list (array Z)) h',
    state_windowing 0 4 store_Z_two = (inr out, h')
    ∧ last_slices out = inr [[1]; [2]]%Z.
Proof.
  apply (X7_last_slice_is_input store_Z_two 0 [[1]; [2]]%Z 1 4);
    [reflexivity | repeat constructor | lia].
Defined.

Lemma X8_windows_slide_witness :
  ∃ (out : list (array Z)) h',
    state_windowing 0 4 store_Z_two = (inr out, h')
    ∧ ∀ t j e1 e2,
        out !! (t + 1) = Some e1 → out !! t = Some e2 →
        (Z.of_nat j + 1 < 4)%Z →
        e1 !! j = e2 !! (j + 1).
Proof.
  apply (X8_windows_slide store_Z_two 0 [[1]; [2]]%Z 1 4);
    [reflexivity | repeat constructor | lia].
Defined.

Lemma X9_naive_pad_fresh_witness :
  ∃ (y : loc) (b : array Z),
    naive_pad 0 0 store_Z_two = (inr y, <[y := b]> store_Z_two)
    ∧ store_Z_two !! y = None
    ∧ y ≠ 0
    ∧ length b = length [[1]; [2]]%Z
    ∧ (0 = 0 → b = [[1]; [2]]%Z).
Proof.
  apply (X9_naive_pad_fresh store_Z_two 0 [[1]; [2]]%Z 0). reflexivity.
Defined.

Lemma X10_no_window_raises_witness :
  state_windowing 0 (-1) store_Z_two = (raise ValueError, store_Z_two).
Proof.
  apply (X10_no_window_raises store_Z_two 0 (-1)). lia.
Defined.

Lemma X12_soft_updates_tau_zero_witness :
  Forall (λ p : Z * Z, p.2 = p.1) [(1, 1); (2, 2); (3, 3)]%Z.
Proof.
  apply (X12_soft_updates_tau_zero (F := Z) (W := Z) (SF := Z_Scalar)
           (TW := Z_Tensor) eq_refl Z.mul_1_l (λ w w', eq_refl)
           target_Z source_Z). reflexivity.
Defined.

Lemma X13_soft_updates_tau_one_witness :
  map snd [(1, 4); (2, 5); (3, 6)]%Z = model_weights source_Z.
Proof.
  apply (X13_soft_updates_tau_one (F := Z) (W := Z) (SF := Z_Scalar)
           (TW := Z_Tensor) eq_refl Z.mul_1_l (λ w w', Z.add_0_r w)
           target_Z source_Z). reflexivity.
Defined.

Lemma X14_soft_updates_fixed_point_witness :
  Forall (λ p : Z * Z, p.2 = p.1) [(1, 1); (2, 2); (3, 3)]%Z.
Proof.
  apply (X14_soft_updates_fixed_point (F := Z) (W := Z) (SF := Z_Scalar)
           (TW := Z_Tensor) (λ a, Zplus_minus a 1) Z.mul_1_l
           (λ a b w, eq_sym (Z.mul_add_distr_r a b w))
           target_Z target_Z 5%Z); reflexivity.
Defined.


Lemma X18_huber_inside_clip_witness :
  ∃ loss : nat → Q,
    huber_loss "tensorflow" true y_index y_zero (Fin 2) = inr loss
    ∧ ∀ i, (Qabs (y_index i - y_zero i) <= 2)%Q →
           (loss i == (1 # 2) * ((y_index i - y_zero i)
                                 * (y_index i - y_zero i)))%Q.
Proof.
  apply (X18_huber_inside_clip "tensorflow" true y_index y_zero 2);
    [by left | reflexivity].
Defined.

Lemma X20_huber_monotone_witness :
  ∃ loss : nat → Q,
    huber_loss "tensorflow" false y_index y_zero (Fin 2) = inr loss
    ∧ ∀ i j, (Qabs (y_index i - y_zero i) <= Qabs (y_index j - y_zero j))%Q →
             (loss i <= loss j)%Q.
Proof.
  apply (X20_huber_monotone "tensorflow" false y_index y_zero 2);
    [by left | reflexivity].
Defined.

Lemma X22_get_updates_extends_witness :
  get_updates (inner_kept_list 0) 1 (updates_Z, None)
  = (inr 0, (<[0 := [10]%Z ++ [20; 30]%Z]> updates_Z, Some 0))
  ∧ (0 ≠ 1 → (<[0 := [10]%Z ++ [20; 30]%Z]> updates_Z) !! 1
             = Some [20; 30]%Z).
Proof.
  apply (X22_get_updates_extends (inner_kept_list 0) updates_Z updates_Z
           0 1 [10]%Z [20; 30]%Z None); reflexivity.
Defined.

Lemma X23_get_updates_accumulates_witness :
  (get_updates (inner_kept_list 0) 1
   ≫= λ _, get_updates (inner_kept_list 0) 1) (updates_Z, None)
  = (inr 0, (<[0 := [10]%Z ++ [20; 30]%Z ++ [20; 30]%Z]> updates_Z, Some 0)).
Proof.
  apply (X23_get_updates_accumulates updates_Z 0 1 [10]%Z [20; 30]%Z None);
    [reflexivity | reflexivity | discriminate].
Defined.

Lemma X24_get_updates_new_list_witness :
  ∃ r, get_updates (inner_new_list [10]%Z) 1 (updates_Z, None)
       = (inr r, (<[r := [10]%Z ++ [20; 30]%Z]> updates_Z, Some r))
       ∧ updates_Z !! r = None.
Proof.
  apply (X24_get_updates_new_list updates_Z 1 [10]%Z [20; 30]%Z None).
  reflexivity.
Defined.
